(** * flickr_insert: the cache-refresh decision engine and its neighbours

    A shallow embedding of [flickr_insert.py].  Python dictionaries are
    finite maps from strings to dynamically typed values, exceptions are
    an explicit error result, and the pseudo-random draw of
    [random.randint] is an explicit entropy argument. *)

From Stdlib Require Import ZArith String Ascii DecimalString.
From Stdlib Require DecimalZ.
From stdpp Require Import gmap strings list fin_maps sorting.

Local Open Scope string_scope.
Local Open Scope Z_scope.

(** ** Python values, exceptions and results *)

(** The values that occur in tag parameters, cache entries and update
    dictionaries: [int], [str], [bool] and [None]. *)
Inductive value : Type :=
  | VInt (n : Z)
  | VStr (s : string)
  | VBool (b : bool)
  | VNone.

#[global] Instance value_eq_dec : EqDecision value.
Proof. solve_decision. Defined.

Abbreviation dict := (gmap string value).

Inductive exn : Type :=
  | KeyError (k : value)
  | ValueError
  | AttributeError
  | TypeError.

Inductive result (A : Type) : Type :=
  | Ok (a : A)
  | Raise (e : exn).
Arguments Ok {A} a.
Arguments Raise {A} e.

#[global] Instance result_ret : MRet result := fun A a => Ok a.
#[global] Instance result_bind : MBind result := fun A B f m =>
  match m with
  | Ok a => f a
  | Raise e => Raise e
  end.

(** Python truthiness, as used by [if x:] and [not x]. *)
Definition truthy (v : value) : bool :=
  match v with
  | VInt n => negb (n =? 0)
  | VStr s => negb (String.eqb s "")
  | VBool b => b
  | VNone => false
  end.

(** [d[k]]: raises [KeyError] on a missing key. *)
Definition getitem (d : dict) (k : string) : result value :=
  match d !! k with
  | Some v => Ok v
  | None => Raise (KeyError (VStr k))
  end.

(** [d.get(k, dflt)]. *)
Definition get (d : dict) (k : string) (dflt : value) : value :=
  default dflt (d !! k).

(** [d.update(u)]: the keys of [u] win. *)
Definition update (d u : dict) : dict := u ∪ d.

(** ** Strings: [str.strip], [str.lower], [int(s)] and [str(n)] *)

(** The ASCII characters for which [str.isspace] holds: TAB..CR, the four
    separators FS..US, and the blank.  Strings are byte strings here;
    Unicode white space beyond ASCII is outside the model. *)
Definition is_space (c : ascii) : bool :=
  let n := nat_of_ascii c in
  ((9 <=? n) && (n <=? 13) || (28 <=? n) && (n <=? 32))%nat.

Fixpoint lstrip (l : list ascii) : list ascii :=
  match l with
  | c :: l' => if is_space c then lstrip l' else l
  | [] => []
  end.

Definition strip (s : string) : string :=
  string_of_list_ascii
    (rev (lstrip (rev (lstrip (list_ascii_of_string s))))).

Definition lower_ascii (c : ascii) : ascii :=
  let n := nat_of_ascii c in
  if ((65 <=? n) && (n <=? 90))%nat then ascii_of_nat (n + 32) else c.

Fixpoint lower (s : string) : string :=
  match s with
  | EmptyString => EmptyString
  | String c s' => String (lower_ascii c) (lower s')
  end.

Definition digit_of (c : ascii) : option Z :=
  let n := nat_of_ascii c in
  if ((48 <=? n) && (n <=? 57))%nat then Some (Z.of_nat n - 48) else None.

(** The digit part of a decimal literal accepted by [int(s)]: digits,
    with single underscores allowed between two digits. *)
Fixpoint parse_digits (acc : Z) (after_digit : bool) (l : list ascii)
  : option Z :=
  match l with
  | [] => if after_digit then Some acc else None
  | c :: l' =>
      match digit_of c with
      | Some d => parse_digits (10 * acc + d) true l'
      | None =>
          if Ascii.eqb c "_"%char && after_digit
          then parse_digits acc false l'
          else None
      end
  end.

(** [int(s)] in base ten on an already stripped string: an optional sign
    followed by the digits; anything else raises [ValueError]. *)
Definition int_of_str (s : string) : result Z :=
  let parsed :=
    match list_ascii_of_string s with
    | c :: l' =>
        if Ascii.eqb c "-"%char then Z.opp <$> parse_digits 0 false l'
        else if Ascii.eqb c "+"%char then parse_digits 0 false l'
        else parse_digits 0 false (c :: l')
    | [] => None
    end in
  match parsed with
  | Some n => Ok n
  | None => Raise ValueError
  end.

(** [str(n)] for an integer. *)
Definition str_of_int (n : Z) : string :=
  NilZero.string_of_int (Z.to_int n).

(** [make_int]: integers (and booleans, which are integers in Python) pass
    through; a string is stripped and parsed, the empty string giving 0;
    [None] has no [strip]. *)
Definition make_int (s : value) : result Z :=
  match s with
  | VInt n => Ok n
  | VBool b => Ok (Z.b2z b)
  | VStr s =>
      let s := strip s in
      if String.eqb s "" then Ok 0 else int_of_str s
  | VNone => Raise AttributeError
  end.

(** [s.strip(chars)]: the characters of [chars] are removed from both
    ends. *)
Fixpoint lstrip_chars (chars l : list ascii) : list ascii :=
  match l with
  | c :: l' => if bool_decide (c ∈ chars) then lstrip_chars chars l' else l
  | [] => []
  end.

Definition strip_chars (s chars : string) : string :=
  let cs := list_ascii_of_string chars in
  string_of_list_ascii
    (rev (lstrip_chars cs (rev (lstrip_chars cs (list_ascii_of_string s))))).

(** [s.split(sep)] for a separator of one character: the pieces between
    the separators, the empty ones included; there is always one piece. *)
Fixpoint split_char (s : string) (sep : ascii) : list string :=
  match s with
  | EmptyString => [EmptyString]
  | String c s' =>
      if Ascii.eqb c sep then EmptyString :: split_char s' sep
      else
        match split_char s' sep with
        | piece :: pieces => String c piece :: pieces
        | [] => [String c EmptyString]
        end
  end.

(** [s.replace(old, new)] for a non-empty [old]: the occurrences of [old]
    are replaced from left to right, the search going on after each
    occurrence.  [skip] counts the characters of an occurrence still to be
    passed over. *)
Fixpoint str_replace_from (old new : string) (skip : nat) (s : string)
  : string :=
  match s with
  | EmptyString => EmptyString
  | String c s' =>
      match skip with
      | S k => str_replace_from old new k s'
      | O =>
          if String.prefix old s
          then new ++ str_replace_from old new (String.length old - 1) s'
          else String c (str_replace_from old new 0 s')
      end
  end.

Definition str_replace (s old new : string) : string :=
  str_replace_from old new 0 s.

(** [sub in s] *)
Fixpoint str_contains (s sub : string) : bool :=
  String.prefix sub s
  || match s with
     | EmptyString => false
     | String _ s' => str_contains s' sub
     end.

(** ** Configuration *)

(** [FLICKR_INSERT_CACHE_CFG]: a dictionary with a fixed set of keys,
    read by name only. *)
Record CacheCfg : Type := {
  filename : string;
  key_field : string;
  increment : Z;
  session_interval : Z;
  recent_interval : Z;
  refresh_interval : Z;
  field_names : list string
}.

Definition default_cache_cfg : CacheCfg := {|
  filename := "flickr_insert_cache.csv";
  key_field := "pic_id";
  increment := 86400;
  session_interval := 3600;
  recent_interval := 3 * 86400;
  refresh_interval := 14 * 86400;
  field_names :=
    ["title"; "insert_image_url_base"; "last_updated"; "next_update";
     "last_updated_str"; "next_update_str"; "flickr_error"]
|}.

(** ** The refresh decision engine *)

(** [random.randint(a, b)]: a draw from the closed range [a..b], raising
    [ValueError] when the range is empty.  The generator's state is the
    entropy [rnd]; every value of the range is the draw of some [rnd]
    (see [randint_onto]). *)
Definition randint (rnd a b : Z) : result Z :=
  if a <=? b then Ok (a + rnd mod (b - a + 1)) else Raise ValueError.

Definition get_next_update_time (rnd cur_time : Z) (cache_cfg : CacheCfg)
  : result Z :=
  n ← randint rnd (recent_interval cache_cfg + increment cache_cfg)
                  (refresh_interval cache_cfg);
  mret (cur_time + n).

Section Decision.

(** [epoch_to_str] formats a time stamp in the local time zone of the
    process; the decision logic only passes its result along, so it is a
    parameter here.  [epoch_to_str_utc] below is the instance for UTC. *)
Variable epoch_to_str : Z → string.

(** The recency-or-unset test of step 2. *)
Definition recently_updated (item_last_updated cur_time : Z)
    (cache_cfg : CacheCfg) : bool :=
  (cur_time - recent_interval cache_cfg <? item_last_updated)
  || (item_last_updated =? 0).

Definition get_cache_update_for_item (rnd : Z) (cache_entry : dict)
    (cur_time : Z) (cache_cfg : CacheCfg) : result dict :=
  let cache_update : dict := {[ "status" := VStr "ok" ]} in
  item_last_updated ← make_int (get cache_entry "last_updated" (VInt 0));
  if cur_time - item_last_updated <? session_interval cache_cfg
  then mret cache_update
  else
    let key_name := key_field cache_cfg in
    cache_id ← getitem cache_entry key_name;
    let next_update_time := cur_time + refresh_interval cache_cfg in
    '(cache_update, next_update_time) ←
      (if recently_updated item_last_updated cur_time cache_cfg
       then
         n ← get_next_update_time rnd cur_time cache_cfg;
         mret (<["status" := VStr "needs_update"]> cache_update, n)
       else mret (cache_update, next_update_time));
    item_next_update ←
      make_int (get cache_entry "next_update" (VInt (cur_time + 1)));
    let cache_update :=
      if item_next_update <=? cur_time
      then <["status" := VStr "needs_update"]> cache_update
      else cache_update in
    if bool_decide (cache_update !! "status" = Some (VStr "needs_update"))
    then
      let cache_update := update cache_update {[ key_name := cache_id ]} in
      let cache_update :=
        <["next_update" := VInt next_update_time]> cache_update in
      let cache_update :=
        <["next_update_str" := VStr (epoch_to_str next_update_time)]>
          cache_update in
      mret cache_update
    else mret cache_update.

(** The dictionary handed back with the verdict [needs_update]: the
    status, the key of the entry, and the next update time with its
    rendering. *)
Definition needs_update_result (key_name : string) (cache_id : value)
    (next_update_time : Z) : dict :=
  <["next_update_str" := VStr (epoch_to_str next_update_time)]>
    (<["next_update" := VInt next_update_time]>
       (update {[ "status" := VStr "needs_update" ]}
          {[ key_name := cache_id ]})).

End Decision.

(** ** Time stamps *)

Definition pad2 (n : Z) : string :=
  if n <? 10 then "0" ++ str_of_int n else str_of_int n.

(** The civil date (year, month, day) of a day number counted from
    1970-01-01, in the proleptic Gregorian calendar. *)
Definition civil_from_days (days : Z) : Z * Z * Z :=
  let z := days + 719468 in
  let era := z / 146097 in
  let doe := z - era * 146097 in
  let yoe := (doe - doe / 1460 + doe / 36524 - doe / 146096) / 365 in
  let doy := doe - (365 * yoe + yoe / 4 - yoe / 100) in
  let mp := (5 * doy + 2) / 153 in
  let d := doy - (153 * mp + 2) / 5 + 1 in
  let m := if mp <? 10 then mp + 3 else mp - 9 in
  let y := yoe + era * 400 + (if m <=? 2 then 1 else 0) in
  (y, m, d).

(** [epoch_to_str] for a process whose local time zone is UTC:
    [time.strftime("%Y-%m%d, %H:%M:%S", time.localtime(epoch))]. *)
Definition epoch_to_str_utc (epoch : Z) : string :=
  let '(y, m, d) := civil_from_days (epoch / 86400) in
  let secs := epoch mod 86400 in
  str_of_int y ++ "-" ++ pad2 m ++ pad2 d ++ ", "
    ++ pad2 (secs / 3600) ++ ":" ++ pad2 (secs mod 3600 / 60) ++ ":"
    ++ pad2 (secs mod 60).

(** ** The metadata resolver *)

(** The ['photo'] part of a [flickr.photos.getInfo] response. *)
Record photo_info : Type := {
  farm : Z;
  server : string;
  id : string;
  secret : string;
  title_content : option string
}.

(** What the call [flickr.photos.getInfo(photo_id=..)] does: it raises
    [FlickrError] with a message, or it returns a response with a status
    flag. *)
Inductive getInfo_outcome : Type :=
  | FlickrError (msg : string)
  | Response (stat : string) (photo : photo_info).

Definition get_info_from_flickr (flickr : string → getInfo_outcome)
    (photo_id : string) : dict :=
  let _flickr_info : dict := ∅ in
  match flickr photo_id with
  | FlickrError e => update _flickr_info {[ "flickr_error" := VStr e ]}
  | Response stat response =>
      if negb (String.eqb stat "ok") then _flickr_info
      else
        let u :=
          ("https://farm" ++ str_of_int (farm response))
          ++ (".staticflickr.com/" ++ (server response ++ "/"))
          ++ (id response ++ "_")
          ++ (secret response ++ "_") in
        let _flickr_info :=
          <["insert_image_url_base" := VStr u]> _flickr_info in
        <["title" := VStr (default "" (title_content response))]>
          _flickr_info
  end.

(** The base of the direct link of a photo, as [get_info_from_flickr]
    joins it. *)
Definition insert_image_url_base_of (response : photo_info) : string :=
  ("https://farm" ++ str_of_int (farm response))
  ++ (".staticflickr.com/" ++ (server response ++ "/"))
  ++ (id response ++ "_")
  ++ (secret response ++ "_").

(** ** The per-tag cache update of [replace_tags_in_document] *)

Section Mutator.

Variable epoch_to_str : Z → string.

(** The body of [if updated_item:]: the update dictionary absorbs the
    resolver's fields and is stamped with the current time and a newly
    drawn next update time. *)
Definition refresh_item_update (rnd : Z) (item_update updated_item : dict)
    (cur_time : Z) (cache_cfg : CacheCfg) : result dict :=
  let item_update := update item_update updated_item in
  next_update_time ← get_next_update_time rnd cur_time cache_cfg;
  mret (update item_update
          (<["next_update_str" := VStr (epoch_to_str next_update_time)]>
           (<["next_update" := VInt next_update_time]>
            (<["last_updated_str" := VStr (epoch_to_str cur_time)]>
             {[ "last_updated" := VInt cur_time ]})))).

(** One iteration of the loop over the tags of a document, from the
    creation of a missing cache entry to the merge of the cached fields
    into [photo].  [pic_id] is [photo[key_field]]; the store is keyed by
    photo identifiers, which are strings.  [rnd1] feeds the draw of the
    decision, [rnd2] the draw of the refresh. *)
Definition replace_tag_cache_step (rnd1 rnd2 : Z)
    (flickr : string → getInfo_outcome) (cur_time : Z)
    (cache_cfg : CacheCfg) (cache : gmap string dict) (photo : dict)
    (pic_id : string) : result (gmap string dict * dict) :=
  let key_field := key_field cache_cfg in
  let cache :=
    match cache !! pic_id with
    | Some e =>
        if bool_decide (e = ∅)
        then <[pic_id := {[ key_field := VStr pic_id ]}]> cache
        else cache
    | None => <[pic_id := {[ key_field := VStr pic_id ]}]> cache
    end in
  let cache_entry := default ∅ (cache !! pic_id) in
  item_update ←
    get_cache_update_for_item epoch_to_str rnd1 cache_entry cur_time
      cache_cfg;
  status ← getitem item_update "status";
  '(cache, photo, item_update) ←
    (if bool_decide (status = VStr "needs_update")
     then
       let updated_item := get_info_from_flickr flickr pic_id in
       if negb (bool_decide (updated_item = ∅))
       then
         item_update ←
           refresh_item_update rnd2 item_update updated_item cur_time
             cache_cfg;
         mret (<[pic_id := item_update]> cache,
               update photo item_update, item_update)
       else mret (cache, photo, item_update)
     else mret (cache, photo, item_update));
  status ← getitem item_update "status";
  let photo :=
    if bool_decide (status = VStr "ok") then update photo cache_entry
    else photo in
  mret (cache, photo).

End Mutator.

(** ** Tag parameters: size and caption *)

Definition DEFAULT_PHOTO_SUFFIX : string := "z".

Definition photo_suffix_sizes : list (string * list string) :=
  [ ("s", ["smallsq"; "sq75"; "75"]);
    ("t", ["thumb"; "th100"; "100"]);
    ("q", ["largesq"; "sq150"; "150"]);
    ("m", ["small"; "small240"; "240"]);
    (DEFAULT_PHOTO_SUFFIX, ["medium"; "medium640"; "640"]);
    ("b", ["large"; "large1024"; "1024"]) ].

(** A dictionary comprehension [{k: v for v, ks in table for k in ks}]:
    the pairs are stored in order, a later pair replacing an earlier one
    with the same key. *)
Definition invert_table {V : Type} (table : list (V * list string))
  : gmap string V :=
  foldl (λ m kv, <[kv.1 := kv.2]> m) ∅
    (flat_map (λ row, (λ k, (k, row.1)) <$> row.2) table).

Definition photo_suffixes : gmap string string :=
  invert_table photo_suffix_sizes.

Definition photo_captions_enabled : list (bool * list string) :=
  [ (false, ["s"; "t"; "q"; "m"]);
    (true, ["z"; "b"]) ].

Definition caption_for_size : gmap string bool :=
  invert_table photo_captions_enabled.

Definition BOOLEAN_STATES : gmap string bool :=
  list_to_map
    [ ("1", true); ("yes", true); ("y", true); ("true", true);
      ("on", true);
      ("0", false); ("no", false); ("n", false); ("false", false);
      ("off", false) ].

(** [k in d.keys()] and [d.get(k)] for a string-keyed table and an
    arbitrary value [k]: only a string can be a key of the table. *)
Definition table_get {V : Type} (d : gmap string V) (k : value)
  : option V :=
  match k with
  | VStr s => d !! s
  | _ => None
  end.

Definition ensure_photo_size (photo : dict) (default_image_size : string)
  : dict :=
  let size_dict : dict := ∅ in
  let size_dict :=
    if negb (bool_decide
               (is_Some (table_get photo_suffixes
                           (get photo "size" (VStr "")))))
    then <["size" := VStr default_image_size]> size_dict
    else <["size" := get photo "size" VNone]> size_dict in
  let size_suffix :=
    match table_get photo_suffixes (get size_dict "size" VNone) with
    | Some letter => VStr letter
    | None => VNone
    end in
  <["size_suffix" := size_suffix]> size_dict.

(** The default of the parameter [default_image_size]. *)
Definition default_image_size : string := "medium".

(** The caption can be given as [caption] or as [show_caption]; the
    former wins when both are present. *)
Definition specified_caption (photo : dict) : value :=
  get photo "caption" (get photo "show_caption" (VBool false)).

Definition ensure_photo_show_caption (photo : dict) : result dict :=
  let output : dict := ∅ in
  let specified_caption := specified_caption photo in
  if truthy specified_caption
  then
    match specified_caption with
    | VStr s =>
        mret (<["show_caption" :=
                  VBool (default true (BOOLEAN_STATES !! lower s))]> output)
    | _ => Raise AttributeError
    end
  else
    let suffix := get photo "size_suffix" (VStr DEFAULT_PHOTO_SUFFIX) in
    match table_get caption_for_size suffix with
    | Some caption => mret (<["show_caption" := VBool caption]> output)
    | None => Raise (KeyError suffix)
    end.

(** The image URL: the cached base, the size suffix and the extension.
    [+] is defined between two strings only. *)
Definition ensure_photo_insert_image_url (photo : dict) : result dict :=
  let output : dict := ∅ in
  match get photo "insert_image_url_base" (VStr ""),
        get photo "size_suffix" (VStr DEFAULT_PHOTO_SUFFIX) with
  | VStr base, VStr size_suffix =>
      mret (<["insert_image_url" := VStr ((base ++ size_suffix) ++ ".jpg")]>
              output)
  | _, _ => Raise TypeError
  end.

(** The float is ["left"], ["right"] or empty; only a string has
    [lower]. *)
Definition ensure_photo_float (photo : dict) : result dict :=
  let output : dict := ∅ in
  match get photo "float" (VStr "") with
  | VStr s =>
      let p_float := lower s in
      if negb (bool_decide (p_float ∈ ["left"; "right"]))
      then mret (<["float" := VStr ""]> output)
      else mret (<["float" := VStr p_float]> output)
  | _ => Raise AttributeError
  end.

Section PhotoTag.

(** [flickrapi.shorturl.encode] and [decode], the base-58 coding of photo
    identifiers, belong to the Flickr client library; they are parameters
    here, and may raise. *)
Variable shorturl_encode : value → result string.
Variable shorturl_decode : string → result value.

Definition get_photo_id_and_url (photo_dict : dict) (id_field : string)
  : result dict :=
  let pic_id := get photo_dict id_field (get photo_dict "id" VNone) in
  let output : dict := {[ id_field := pic_id ]} in
  let output := update output {[ "url" := get photo_dict "url" VNone ]} in
  url ← getitem output "url";
  output ←
    (if negb (truthy url)
     then
       short ← shorturl_encode pic_id;
       mret (<["url" := VStr ("https://flic.kr/p/" ++ short)]> output)
     else
       out_id ← getitem output id_field;
       if negb (truthy out_id)
       then
         u ← getitem photo_dict "url";
         match u with
         | VStr u =>
             let short_url_id :=
               List.last (split_char (strip_chars u "/") "/"%char) "" in
             decoded ← shorturl_decode short_url_id;
             mret (<[id_field := decoded]> output)
         | _ => Raise AttributeError
         end
       else mret output);
  url ← getitem output "url";
  match url with
  | VStr u => mret (<["url" := VStr (str_replace u "http://" "https://")]>
                      output)
  | _ => Raise AttributeError
  end.

(** The first steps of the loop body of [replace_tags_in_document]: the
    parameters of a tag are completed and tidied, each step seeing the
    result of the steps before it. *)
Definition clean_photo_parameters (key_field : string) (photo : dict)
  : result dict :=
  id_and_url ← get_photo_id_and_url photo key_field;
  let photo := update photo id_and_url in
  let photo := update photo (ensure_photo_size photo default_image_size) in
  show_caption ← ensure_photo_show_caption photo;
  let photo := update photo show_caption in
  float ← ensure_photo_float photo;
  mret (update photo float).

End PhotoTag.

(** ** The tags of a document *)

Section FlickrTags.

(** [FLICKR_REGEX.findall]: the matches in order, each the whole tag and
    its parameter text.  [config_items text] is what a new [ConfigParser]
    gives for [read_string(text)] followed by [items('temp')]; it may
    raise. *)
Variable findall : string → list (string * string).
Variable config_items : string → result (list (string * string)).

Definition newline : string := String (ascii_of_nat 10) EmptyString.

(** A dictionary comprehension over the items. *)
Definition dict_of_items (items : list (string * string)) : dict :=
  foldl (λ d item, <[item.1 := VStr item.2]> d) ∅ items.

Definition parse_flickr_tag (tag_str : string) : result dict :=
  let tag_params : dict := ∅ in
  items ← config_items ("[temp]" ++ newline
                          ++ str_replace tag_str "," newline);
  let read_params := dict_of_items items in
  mret (update tag_params read_params).

(** The loop of [get_flickr_tags]: [params] is rebound at each match. *)
Fixpoint get_flickr_tags_loop (matches : list (string * string))
    (params : dict) : result dict :=
  match matches with
  | [] => mret params
  | m :: matches' =>
      items ← config_items ("[temp]" ++ newline
                              ++ str_replace m.2 "," newline);
      let params := dict_of_items items in
      let params := <["full_tag" := VStr m.1]> params in
      get_flickr_tags_loop matches' params
  end.

(** The [append] comes after the loop. *)
Definition get_flickr_tags (content : string) : result (list dict) :=
  let tags : list dict := [] in
  let matches := findall content in
  params ← get_flickr_tags_loop matches ∅;
  mret (tags ++ [params])%list.

End FlickrTags.

(** ** The record store: CSV persistence *)

(** A CSV file is the list of its rows, the header first, each row the
    list of its cells, as [csv.DictWriter] hands them to the underlying
    writer: the writer quotes a cell that needs it, and the CSV format is
    taken to hold every cell as it was given.  The file system maps file
    names to files. *)
Abbreviation files := (gmap string (list (list string))).

(** Both functions open the file in text mode with the default [newline].
    On writing, a line feed goes out as the line separator of the
    platform, taken here to be the line feed itself, and a carriage return
    goes out as it is.  On reading, the line ends CR LF and CR come in as
    LF, inside a quoted cell as anywhere else: [universal_newlines] is
    what the reader gets for a cell of the file. *)
Definition CR : ascii := ascii_of_nat 13.
Definition LF : ascii := ascii_of_nat 10.

Fixpoint universal_newlines (s : string) : string :=
  match s with
  | EmptyString => EmptyString
  | String c s' =>
      if Ascii.eqb c CR then
        match s' with
        | String c' s'' =>
            if Ascii.eqb c' LF then String LF (universal_newlines s'')
            else String LF (universal_newlines s')
        | EmptyString => String LF EmptyString
        end
      else String c (universal_newlines s')
  end.

(** The rows the CSV reader gets from a file opened for reading. *)
Definition read_text (rows : list (list string)) : list (list string) :=
  (λ row : list string, universal_newlines <$> row) <$> rows.

(** A text without a carriage return: the reader gets it as it is. *)
Definition cr_free (s : string) : Prop := CR ∉ list_ascii_of_string s.

(** The text the CSV writer puts into a cell: [''] for [None], the string
    itself, [str(v)] otherwise. *)
Definition cell_of (v : value) : string :=
  match v with
  | VStr s => s
  | VInt n => str_of_int n
  | VBool b => if b then "True" else "False"
  | VNone => ""
  end.

(** [DictWriter.writerow] with [extrasaction='ignore'] and the default
    [restval='']: one cell per field name, in order. *)
Definition writerow (fieldnames : list string) (rowdict : dict)
  : list string :=
  (λ f, cell_of (get rowdict f (VStr ""))) <$> fieldnames.

Definition key_le (a b : string * dict) : Prop :=
  String.leb a.1 b.1 = true.

#[global] Instance key_le_dec : RelDecision key_le.
Proof. intros a b. unfold key_le. apply _. Defined.

(** [sorted(cache.items())]: the keys of a dictionary are distinct, so the
    order is the order of the keys. *)
Definition sorted_items (cache : gmap string dict) : list (string * dict) :=
  merge_sort key_le (map_to_list cache).

Definition save_cache_to_csv (cache : gmap string dict) (filename : string)
    (fieldnames : list string) (key_name : string) (fs : files) : files :=
  let csv_fieldnames := key_name :: fieldnames in
  let header := csv_fieldnames in
  let rows := (λ item, writerow csv_fieldnames item.2) <$> sorted_items cache in
  <[filename := header :: rows]> fs.

(** The dictionary that [csv.DictReader] yields for a row.  Its keys are
    the field names and, for a row longer than the header, [None]: the
    record keeps the two apart.  [row_dict] is the part under the field
    names, [row_rest] the list of surplus cells under [None], if any. *)
Record csv_row : Type := {
  row_dict : dict;
  row_rest : option (list string)
}.

(** [dict(zip(fieldnames, row))], then [None] for every field that a
    short row lacks. *)
Definition zip_row (fieldnames row : list string) : dict :=
  let d : dict :=
    foldl (λ d kv, <[kv.1 := VStr kv.2]> d) ∅ (zip fieldnames row) in
  foldl (λ d k, <[k := VNone]> d) d (drop (length row) fieldnames).

(** [DictReader.__next__] on a row that is not empty, with the defaults
    [restkey=None] and [restval=None]. *)
Definition DictReader_row (fieldnames row : list string) : csv_row :=
  {| row_dict := zip_row fieldnames row;
     row_rest :=
       if decide (length fieldnames < length row)%nat
       then Some (drop (length fieldnames) row)
       else None |}.

(** The keys of a loaded store are the values found in the key column: a
    string, or [None] for a row too short to have the cell. *)
#[global] Instance value_countable : Countable value.
Proof.
  refine (inj_countable'
    (λ v, match v with
          | VInt n => inl (inl n)
          | VStr s => inl (inr s)
          | VBool b => inr (Some b)
          | VNone => inr None
          end)
    (λ x, match x with
          | inl (inl n) => VInt n
          | inl (inr s) => VStr s
          | inr (Some b) => VBool b
          | inr None => VNone
          end) _).
  by intros [].
Defined.

(** [{row[key_name]: row for row in reader}]: empty rows are skipped, a
    later row replaces an earlier one with the same key, and a header
    without the key column raises [KeyError] at the first row. *)
Fixpoint read_rows (fieldnames : list string) (key_name : string)
    (data : list (list string)) (_cache : gmap value csv_row)
  : result (gmap value csv_row) :=
  match data with
  | [] => mret _cache
  | row :: data' =>
      if bool_decide (row = []) then
        read_rows fieldnames key_name data' _cache
      else
        let d := DictReader_row fieldnames row in
        k ← getitem (row_dict d) key_name;
        read_rows fieldnames key_name data' (<[k := d]> _cache)
  end.

(** The default of the parameter [key_name] of both functions. *)
Definition default_key_name : string := "id".

Definition load_cache_from_csv (filename key_name : string) (fs : files)
  : result (gmap value csv_row) * files :=
  match fs !! filename with
  | Some rows =>
      match read_text rows with
      | [] => (mret ∅, fs)
      | fieldnames :: data =>
          (read_rows fieldnames key_name data ∅, fs)
      end
  | None =>
      (mret ∅, save_cache_to_csv ∅ filename [] default_key_name fs)
  end.

(** A store with string keys and plain records, the kind that
    [save_cache_to_csv] takes, seen as a loaded store. *)
Definition plain_row (e : dict) : csv_row :=
  {| row_dict := e; row_rest := None |}.

#[global] Instance VStr_inj : Inj (=) (=) VStr.
Proof. by intros s1 s2 [= ->]. Defined.

Definition as_loaded (cache : gmap string dict) : gmap value csv_row :=
  kmap VStr (plain_row <$> cache).

(** A record written as a row under the columns [fieldnames] and read
    back. *)
Definition reread (fieldnames : list string) (e : dict) : dict :=
  zip_row fieldnames (universal_newlines <$> writerow fieldnames e).

(** ** The decision engine over a store of dictionary objects *)

(** Python passes dictionaries by reference.  Here the objects live in a
    heap and the functions take and return addresses, so that what a call
    writes, and where, is part of its result. *)
Module Store.

Abbreviation loc := positive.
Abbreviation heap := (gmap positive (gmap string value)).

(** A computation reads and writes the heap and returns or raises; what
    was written before an exception stays written. *)
Definition st (A : Type) : Type := heap → result A * heap.

#[global] Instance st_ret : MRet st := fun A a h => (Ok a, h).
#[global] Instance st_bind : MBind st := fun A B f m h =>
  match m h with
  | (Ok a, h') => f a h'
  | (Raise e, h') => (Raise e, h')
  end.

Definition lift {A : Type} (r : result A) : st A := fun h => (r, h).

(** The dictionary at an address; every address a program holds is
    allocated. *)
Definition deref (h : heap) (l : loc) : dict := default ∅ (h !! l).

(** [{}]: a new object at an address not in use. *)
Definition new_dict : st loc := fun h =>
  let l := fresh (dom h) in (Ok l, <[l := ∅]> h).

(** [d.get(k, dflt)] *)
Definition dict_get (d : loc) (k : string) (dflt : value) : st value :=
  fun h => (Ok (get (deref h d) k dflt), h).

(** [d[k]] *)
Definition dict_getitem (d : loc) (k : string) : st value :=
  fun h => (getitem (deref h d) k, h).

(** [d[k] = v] *)
Definition dict_setitem (d : loc) (k : string) (v : value) : st unit :=
  fun h => (Ok (), <[d := <[k := v]> (deref h d)]> h).

(** [d.update(u)] for a dictionary display [u] *)
Definition dict_update (d : loc) (u : dict) : st unit :=
  fun h => (Ok (), <[d := update (deref h d) u]> h).

Section Decision.

Variable epoch_to_str : Z → string.

Definition get_cache_update_for_item (rnd : Z) (cache_entry : loc)
    (cur_time : Z) (cache_cfg : CacheCfg) : st loc :=
  cache_update ← new_dict;
  dict_setitem cache_update "status" (VStr "ok");;
  last_updated ← dict_get cache_entry "last_updated" (VInt 0);
  item_last_updated ← lift (make_int last_updated);
  if cur_time - item_last_updated <? session_interval cache_cfg
  then mret cache_update
  else
    let key_name := key_field cache_cfg in
    cache_id ← dict_getitem cache_entry key_name;
    let next_update_time := cur_time + refresh_interval cache_cfg in
    next_update_time ←
      (if recently_updated item_last_updated cur_time cache_cfg
       then
         dict_setitem cache_update "status" (VStr "needs_update");;
         lift (get_next_update_time rnd cur_time cache_cfg)
       else mret next_update_time);
    next_update ←
      dict_get cache_entry "next_update" (VInt (cur_time + 1));
    item_next_update ← lift (make_int next_update);
    (if item_next_update <=? cur_time
     then dict_setitem cache_update "status" (VStr "needs_update")
     else mret ());;
    status ← dict_getitem cache_update "status";
    (if bool_decide (status = VStr "needs_update")
     then
       dict_update cache_update {[ key_name := cache_id ]};;
       dict_setitem cache_update "next_update" (VInt next_update_time);;
       dict_setitem cache_update "next_update_str"
         (VStr (epoch_to_str next_update_time))
     else mret ());;
    mret cache_update.

End Decision.

End Store.

(** ** Sample data *)

(** The policy of the test suite. *)
Definition test_cfg : CacheCfg := {|
  filename := "flickr_insert_cache.csv";
  key_field := "pic_id";
  increment := 10;
  session_interval := 5;
  recent_interval := 30;
  refresh_interval := 140;
  field_names := field_names default_cache_cfg
|}.

(** A policy that satisfies [0 <= increment <= recent_interval <=
    refresh_interval] and leaves no room for the draw. *)
Definition narrow_cfg : CacheCfg := {|
  filename := "flickr_insert_cache.csv";
  key_field := "pic_id";
  increment := 20;
  session_interval := 5;
  recent_interval := 30;
  refresh_interval := 40;
  field_names := field_names default_cache_cfg
|}.

(** The entries of the test suite: never updated; updated at 2 and due at
    15; updated at 2 and due at 45. *)
Definition entry_new : dict := {[ "pic_id" := VInt 100 ]}.

Definition entry_due_15 : dict :=
  <["next_update" := VInt 15]> (<["last_updated" := VInt 2]> entry_new).

Definition entry_due_45 : dict :=
  <["next_update" := VInt 45]> (<["last_updated" := VInt 2]> entry_new).

(** An entry updated at 4 whose deadline, 4, has passed at time 5. *)
Definition entry_due_4 : dict :=
  <["next_update" := VInt 4]> (<["last_updated" := VInt 4]> entry_new).

(** A heap of two dictionary objects: the entry due at 45 at address 1,
    the never-updated entry at address 2. *)
Definition sample_heap : gmap positive dict :=
  <[1%positive := entry_due_45]> {[ 2%positive := entry_new ]}.

(** A store with one entry as the CSV reader delivers it, all cells
    strings: updated at 100 and due at 200. *)
Definition cached_entry : dict :=
  list_to_map
    [ ("pic_id", VStr "16736042621");
      ("title", VStr "Sunset");
      ("insert_image_url_base",
       VStr "https://farm9.staticflickr.com/8579/16736042621_7cfe88c078_");
      ("last_updated", VStr "100");
      ("next_update", VStr "200");
      ("last_updated_str", VStr "1970-0101, 00:01:40");
      ("next_update_str", VStr "1970-0101, 00:03:20");
      ("flickr_error", VStr "") ].

Definition sample_cache : gmap string dict :=
  {[ "16736042621" := cached_entry ]}.

(** The parameters of the tag [[flickr:id=16736042621]] once the
    identifier has been copied to the key field. *)
Definition sample_photo : dict :=
  list_to_map
    [ ("id", VStr "16736042621"); ("pic_id", VStr "16736042621") ].

(** A service that cannot be reached. *)
Definition flickr_down (photo_id : string) : getInfo_outcome :=
  FlickrError "Error: 0: connection failed".

(** A service that answers with a failure status. *)
Definition flickr_not_ok (photo_id : string) : getInfo_outcome :=
  Response "fail"
    {| farm := 0; server := ""; id := ""; secret := "";
       title_content := None |}.

(** The answer of the service for the photo of the cached entry. *)
Definition sample_info : photo_info :=
  {| farm := 9; server := "8579"; id := "16736042621";
     secret := "7cfe88c078"; title_content := Some "Sunset" |}.

(** A service that knows the photo. *)
Definition flickr_ok (photo_id : string) : getInfo_outcome :=
  Response "ok" sample_info.

(** Stand-ins for the short URL coding, for one photo and its code. *)
Definition shorturl_encode_sample (photo_id : value) : result string :=
  Ok "r5ZpJq".

Definition shorturl_decode_sample (short_id : string) : result value :=
  Ok (VStr "16736042621").

(** Stand-ins for the tag search and the parameter parser: a text with
    two tags, each with an identifier. *)
Definition findall_sample (content : string) : list (string * string) :=
  [ ("[flickr:id=1]", "id=1"); ("[flickr:id=2]", "id=2") ].

Definition config_items_sample (text : string)
  : result (list (string * string)) :=
  if str_contains text "id=1" then Ok [("id", "1")] else Ok [("id", "2")].

(** The parameters of the tag [[flickr:id=16736042621]] once they are
    completed and tidied. *)
Definition cleaned_photo : dict :=
  update
    (update
       (update
          (update {[ "id" := VStr "16736042621" ]}
             (<["url" := VStr ("https://flic.kr/p/" ++ "r5ZpJq")]>
                {[ "pic_id" := VStr "16736042621" ]}))
          (<["size_suffix" := VStr "z"]> {[ "size" := VStr "medium" ]}))
       {[ "show_caption" := VBool true ]})
    {[ "float" := VStr "" ]}.

(** A store after a refresh: the time stamps are integers, and the
    status of the decision is among the fields. *)
Definition refreshed_entry : dict :=
  list_to_map
    [ ("status", VStr "needs_update");
      ("pic_id", VStr "16736042621");
      ("title", VStr "Sunset");
      ("last_updated", VInt 1000);
      ("next_update", VInt 1040) ].

Definition refreshed_cache : gmap string dict :=
  {[ "16736042621" := refreshed_entry ]}.

(** A store whose only entry names another key in its key field. *)
Definition renamed_cache : gmap string dict :=
  {[ "A" := {[ "pic_id" := VStr "B" ]} ]}.

(** An entry updated at 2 whose deadline, 3, has passed at time 8. *)
Definition entry_due_3 : dict :=
  <["next_update" := VInt 3]> (<["last_updated" := VInt 2]> entry_new).

(** A text of two lines separated by a carriage return, and the same
    with a line feed. *)
Definition two_lines_cr : string := String "a" (String CR "b").

(** A store whose only entry has a title of two lines. *)
Definition two_line_entry : dict :=
  list_to_map [ ("pic_id", VStr "P"); ("title", VStr two_lines_cr) ].

Definition two_line_cache : gmap string dict :=
  {[ "P" := two_line_entry ]}.


(** A file system with two files that hold no record: one with a header
    of its own and no row after it, one without any row. *)
Definition other_files : files :=
  <["other.csv" := [["pic_id"; "title"]]]> {[ "empty.csv" := [] ]}.

(** A file with a row longer than its header, an empty row, and a row too
    short to have a cell in the key column; and the store loaded from
    it. *)
Definition ragged_files : files :=
  {[ "cache.csv" :=
       [ ["title"; "pic_id"];
         ["Sunset"; "A"; "extra"];
         [];
         ["Dawn"] ] ]}.

Definition ragged_cache : gmap value csv_row :=
  <[VNone := DictReader_row ["title"; "pic_id"] ["Dawn"]]>
    {[ VStr "A" := DictReader_row ["title"; "pic_id"]
                     ["Sunset"; "A"; "extra"] ]}.

(** A text of white space only, the empty text included. *)
Definition blank (s : string) : Prop :=
  Forall (λ c, is_space c = true) (list_ascii_of_string s).

(** * Properties *)

(** ** The random draw *)

Lemma randint_range rnd a b n :
  randint rnd a b = Ok n → a <= n <= b.
Proof.
  unfold randint. destruct (Z.leb_spec a b) as [Hab|Hab]; [|discriminate].
  intros [= <-].
  pose proof (Z.mod_pos_bound rnd (b - a + 1)). lia.
Qed.

Lemma randint_returns rnd a b :
  a <= b → ∃ n, randint rnd a b = Ok n ∧ a <= n <= b.
Proof.
  intros Hab. unfold randint.
  destruct (Z.leb_spec a b) as [_|?]; [|lia].
  eexists; split; [reflexivity|].
  pose proof (Z.mod_pos_bound rnd (b - a + 1)). lia.
Qed.

(** Every value of the range is drawn for some entropy. *)
Lemma randint_onto a b n :
  a <= n <= b → randint (n - a) a b = Ok n.
Proof.
  intros Hn. unfold randint.
  destruct (Z.leb_spec a b) as [_|?]; [|lia].
  rewrite Z.mod_small by lia. f_equal. lia.
Qed.

Lemma randint_empty rnd a b : b < a → randint rnd a b = Raise ValueError.
Proof.
  intros Hab. unfold randint. destruct (Z.leb_spec a b); [lia|done].
Qed.

Lemma get_next_update_time_range rnd cur cfg n :
  get_next_update_time rnd cur cfg = Ok n →
  cur + recent_interval cfg + increment cfg <= n
  ∧ n <= cur + refresh_interval cfg.
Proof.
  unfold get_next_update_time.
  destruct (randint _ _ _) as [m|e] eqn:Hr; simpl; [|discriminate].
  intros [= <-]. apply randint_range in Hr. lia.
Qed.

Lemma get_next_update_time_returns rnd cur cfg :
  recent_interval cfg + increment cfg <= refresh_interval cfg →
  ∃ n, get_next_update_time rnd cur cfg = Ok n
       ∧ cur + recent_interval cfg + increment cfg <= n
       ∧ n <= cur + refresh_interval cfg.
Proof.
  intros H. unfold get_next_update_time.
  destruct (randint_returns rnd _ _ H) as (m & -> & Hm). simpl.
  eexists; split; [reflexivity|]. lia.
Qed.

(** ** The decision engine *)

Section DecisionFacts.

Variable epoch_to_str : Z → string.

Lemma needs_update_result_next_update key_name cache_id n :
  needs_update_result epoch_to_str key_name cache_id n !! "next_update"
  = Some (VInt n).
Proof.
  unfold needs_update_result.
  rewrite lookup_insert_ne by done. by rewrite lookup_insert_eq.
Qed.

Lemma needs_update_result_status key_name cache_id n :
  key_name ≠ "status" →
  needs_update_result epoch_to_str key_name cache_id n !! "status"
  = Some (VStr "needs_update").
Proof.
  intros Hk. unfold needs_update_result, update.
  rewrite !lookup_insert_ne by done.
  rewrite lookup_union_r by (by rewrite lookup_singleton_ne).
  by rewrite lookup_singleton_eq.
Qed.

Lemma needs_update_result_ne_ok key_name cache_id n :
  needs_update_result epoch_to_str key_name cache_id n
  ≠ {[ "status" := VStr "ok" ]}.
Proof.
  intros H.
  pose proof (needs_update_result_next_update key_name cache_id n) as Hn.
  rewrite H in Hn. by rewrite lookup_singleton_ne in Hn.
Qed.

(** The three outcomes of the decision once the session test has failed
    and the entry is readable. *)
Lemma get_cache_update_for_item_past_session rnd entry cur cfg lu nu id :
  make_int (get entry "last_updated" (VInt 0)) = Ok lu →
  session_interval cfg <= cur - lu →
  entry !! key_field cfg = Some id →
  make_int (get entry "next_update" (VInt (cur + 1))) = Ok nu →
  get_cache_update_for_item epoch_to_str rnd entry cur cfg =
    if recently_updated lu cur cfg then
      n ← get_next_update_time rnd cur cfg;
      Ok (needs_update_result epoch_to_str (key_field cfg) id n)
    else if nu <=? cur then
      Ok (needs_update_result epoch_to_str (key_field cfg) id
            (cur + refresh_interval cfg))
    else Ok {[ "status" := VStr "ok" ]}.
Proof.
  intros Hlu Hs Hid Hnu. unfold get_cache_update_for_item.
  rewrite Hlu. simpl.
  destruct (Z.ltb_spec (cur - lu) (session_interval cfg)); [lia|].
  unfold getitem. rewrite Hid. simpl.
  destruct (recently_updated lu cur cfg).
  - destruct (get_next_update_time rnd cur cfg) as [n|e]; simpl; [|done].
    rewrite Hnu. simpl.
    destruct (nu <=? cur);
      rewrite ?insert_insert_eq, insert_singleton_eq,
        bool_decide_eq_true_2 by (by rewrite lookup_singleton_eq);
      done.
  - simpl. rewrite Hnu. simpl. destruct (nu <=? cur).
    + rewrite insert_singleton_eq,
        bool_decide_eq_true_2 by (by rewrite lookup_singleton_eq).
      done.
    + rewrite bool_decide_eq_false_2; [done|].
      by rewrite lookup_singleton_eq.
Qed.

Lemma get_cache_update_for_item_in_session rnd entry cur cfg lu :
  make_int (get entry "last_updated" (VInt 0)) = Ok lu →
  cur - lu < session_interval cfg →
  get_cache_update_for_item epoch_to_str rnd entry cur cfg
  = Ok {[ "status" := VStr "ok" ]}.
Proof.
  intros Hlu Hs. unfold get_cache_update_for_item. rewrite Hlu. simpl.
  by destruct (Z.ltb_spec (cur - lu) (session_interval cfg)); [|lia].
Qed.

(** A missing key field or an unreadable [next_update] makes the call
    raise once the session test has failed. *)
Lemma get_cache_update_for_item_returns rnd entry cur cfg lu d :
  make_int (get entry "last_updated" (VInt 0)) = Ok lu →
  session_interval cfg <= cur - lu →
  get_cache_update_for_item epoch_to_str rnd entry cur cfg = Ok d →
  ∃ id nu,
    entry !! key_field cfg = Some id
    ∧ make_int (get entry "next_update" (VInt (cur + 1))) = Ok nu.
Proof.
  intros Hlu Hs. unfold get_cache_update_for_item. rewrite Hlu. simpl.
  destruct (Z.ltb_spec (cur - lu) (session_interval cfg)); [lia|].
  unfold getitem. destruct (entry !! key_field cfg) as [id|]; [|done].
  simpl.
  destruct (make_int (get entry "next_update" _)) as [nu|e] eqn:Hnu.
  - eauto.
  - destruct (recently_updated lu cur cfg); simpl; [|done].
    by destruct (get_next_update_time rnd cur cfg).
Qed.

(** C1. Session short-circuit: when [cur_time - last_updated] is below
    [session_interval], the decision is the dictionary with the single
    entry [status = "ok"], whatever the rest of the entry holds (its
    [next_update], even its key) and whatever the draw. *)
Theorem session_short_circuit rnd entry cur cfg lu :
  make_int (get entry "last_updated" (VInt 0)) = Ok lu →
  cur - lu < session_interval cfg →
  get_cache_update_for_item epoch_to_str rnd entry cur cfg
  = Ok {[ "status" := VStr "ok" ]}.
Proof. apply get_cache_update_for_item_in_session. Qed.

(** C2, amended. An entry that was never updated ([last_updated] reads as
    0), looked at when the session test fails ([session_interval <=
    cur_time]) under a policy whose range for the draw is not empty, gets
    the verdict [needs_update] with a next update time [n] such that
    [cur_time + recent_interval + increment <= n <= cur_time +
    refresh_interval], both bounds included. *)
Theorem never_updated_needs_update rnd entry cur cfg id nu :
  make_int (get entry "last_updated" (VInt 0)) = Ok 0 →
  session_interval cfg <= cur →
  entry !! key_field cfg = Some id →
  make_int (get entry "next_update" (VInt (cur + 1))) = Ok nu →
  recent_interval cfg + increment cfg <= refresh_interval cfg →
  ∃ n,
    get_cache_update_for_item epoch_to_str rnd entry cur cfg
    = Ok (needs_update_result epoch_to_str (key_field cfg) id n)
    ∧ cur + recent_interval cfg + increment cfg <= n
    ∧ n <= cur + refresh_interval cfg
    ∧ (key_field cfg ≠ "status" →
       needs_update_result epoch_to_str (key_field cfg) id n !! "status"
       = Some (VStr "needs_update")).
Proof.
  intros Hlu Hs Hid Hnu Hrange.
  rewrite (get_cache_update_for_item_past_session rnd entry cur cfg 0 nu id)
    by (done || lia).
  assert (recently_updated 0 cur cfg = true) as ->
    by (unfold recently_updated; apply orb_true_r).
  destruct (get_next_update_time_returns rnd cur cfg Hrange)
    as (n & -> & Hlo & Hhi).
  exists n. simpl. split_and!; [done..|].
  apply needs_update_result_status.
Qed.

(** C3, amended. Hard deadline: when the session test fails and
    [next_update <= cur_time], the verdict is [needs_update], also when
    the recency-or-unset rule did not fire; where that rule fires, the
    draw must have a range, [recent_interval + increment <=
    refresh_interval]. *)
Theorem hard_deadline_needs_update rnd entry cur cfg lu nu id :
  make_int (get entry "last_updated" (VInt 0)) = Ok lu →
  session_interval cfg <= cur - lu →
  entry !! key_field cfg = Some id →
  make_int (get entry "next_update" (VInt (cur + 1))) = Ok nu →
  nu <= cur →
  recently_updated lu cur cfg = false
  ∨ recent_interval cfg + increment cfg <= refresh_interval cfg →
  ∃ n,
    get_cache_update_for_item epoch_to_str rnd entry cur cfg
    = Ok (needs_update_result epoch_to_str (key_field cfg) id n)
    ∧ (key_field cfg ≠ "status" →
       needs_update_result epoch_to_str (key_field cfg) id n !! "status"
       = Some (VStr "needs_update")).
Proof.
  intros Hlu Hs Hid Hnu Hdue Hrange.
  rewrite (get_cache_update_for_item_past_session rnd entry cur cfg lu nu id)
    by done.
  destruct (recently_updated lu cur cfg) eqn:Hrec.
  - destruct Hrange as [|Hrange]; [done|].
    destruct (get_next_update_time_returns rnd cur cfg Hrange)
      as (n & -> & _).
    exists n. split; [done|]. apply needs_update_result_status.
  - destruct (Z.leb_spec nu cur); [|lia].
    eexists. split; [done|]. apply needs_update_result_status.
Qed.

(** C4, amended. When the verdict is [needs_update] and the
    recency-or-unset rule did not fire, the next update time in the result
    is [cur_time + refresh_interval]: the value set before the rules are
    tried, the same for every draw. *)
Theorem deadline_only_next_update rnd entry cur cfg lu d :
  make_int (get entry "last_updated" (VInt 0)) = Ok lu →
  recently_updated lu cur cfg = false →
  get_cache_update_for_item epoch_to_str rnd entry cur cfg = Ok d →
  d !! "status" = Some (VStr "needs_update") →
  d !! "next_update" = Some (VInt (cur + refresh_interval cfg))
  ∧ ∀ rnd', get_cache_update_for_item epoch_to_str rnd' entry cur cfg = Ok d.
Proof.
  intros Hlu Hrec Hd Hst.
  destruct (Z.lt_ge_cases (cur - lu) (session_interval cfg)) as [Hin|Hout].
  { rewrite (get_cache_update_for_item_in_session rnd entry cur cfg lu)
      in Hd by done.
    injection Hd as <-. by rewrite lookup_singleton_eq in Hst. }
  destruct (get_cache_update_for_item_returns rnd entry cur cfg lu d)
    as (id & nu & Hid & Hnu); [done..|].
  rewrite (get_cache_update_for_item_past_session rnd entry cur cfg lu nu id)
    in Hd by done.
  rewrite Hrec in Hd. destruct (nu <=? cur) eqn:Hdue.
  - injection Hd as <-. split.
    + apply needs_update_result_next_update.
    + intros rnd'.
      rewrite (get_cache_update_for_item_past_session rnd' entry cur cfg
                 lu nu id) by done.
      by rewrite Hrec, Hdue.
  - injection Hd as <-. by rewrite lookup_singleton_eq in Hst.
Qed.

End DecisionFacts.

(** In session, although the deadline of the entry has passed. *)
Lemma session_short_circuit_witness :
  make_int (get entry_due_4 "next_update" (VInt 6)) = Ok 4
  ∧ get_cache_update_for_item epoch_to_str_utc 0 entry_due_4 5 test_cfg
    = Ok {[ "status" := VStr "ok" ]}.
Proof.
  split; [reflexivity|].
  apply (session_short_circuit epoch_to_str_utc 0 entry_due_4 5 test_cfg 4).
  - reflexivity.
  - simpl; lia.
Defined.

(** C2 as stated fails in three ways: a never-updated entry looked at
    before [session_interval] has elapsed since the epoch is reported
    [ok]; the upper bound [cur_time + refresh_interval] is attained by the
    draw; and a policy within [0 <= increment <= recent_interval <=
    refresh_interval] can leave the draw no range, so the call raises. *)
Lemma never_updated_counterexample :
  make_int (get entry_new "last_updated" (VInt 0)) = Ok 0
  ∧ get_cache_update_for_item epoch_to_str_utc 0 entry_new 4 test_cfg
    = Ok {[ "status" := VStr "ok" ]}
  ∧ get_cache_update_for_item epoch_to_str_utc 100 entry_new 5 test_cfg
    = Ok (needs_update_result epoch_to_str_utc "pic_id" (VInt 100)
            (5 + refresh_interval test_cfg))
  ∧ get_cache_update_for_item epoch_to_str_utc 0 entry_new 5 narrow_cfg
    = Raise ValueError.
Proof. split_and!; reflexivity. Qed.

Lemma never_updated_needs_update_witness :
  ∃ n,
    get_cache_update_for_item epoch_to_str_utc 7 entry_new 5 test_cfg
    = Ok (needs_update_result epoch_to_str_utc "pic_id" (VInt 100) n)
    ∧ 5 + 30 + 10 <= n
    ∧ n <= 5 + 140
    ∧ ("pic_id" ≠ "status" →
       needs_update_result epoch_to_str_utc "pic_id" (VInt 100) n
         !! "status" = Some (VStr "needs_update")).
Proof.
  apply (never_updated_needs_update epoch_to_str_utc 7 entry_new 5 test_cfg
           (VInt 100) 6).
  - reflexivity.
  - simpl; lia.
  - reflexivity.
  - reflexivity.
  - simpl; lia.
Defined.

(** C3 as stated fails in two ways.  Inside the session window the
    deadline is not read: the deadline 4 has passed at time 5, and the
    entry, updated at 4, is reported [ok].  And past the session window,
    where the recency-or-unset rule fires, a policy that leaves the draw
    no range makes the call raise: the deadline 3 has passed at time 8,
    and the entry, updated at 2, gets [ValueError] for every draw. *)
Lemma hard_deadline_counterexample :
  (make_int (get entry_due_4 "next_update" (VInt (5 + 1))) = Ok 4
   ∧ 4 <= 5
   ∧ get_cache_update_for_item epoch_to_str_utc 0 entry_due_4 5 test_cfg
     = Ok {[ "status" := VStr "ok" ]})
  ∧ (make_int (get entry_due_3 "last_updated" (VInt 0)) = Ok 2
     ∧ session_interval narrow_cfg <= 8 - 2
     ∧ make_int (get entry_due_3 "next_update" (VInt (8 + 1))) = Ok 3
     ∧ 3 <= 8
     ∧ recently_updated 2 8 narrow_cfg = true
     ∧ ∀ rnd,
         get_cache_update_for_item epoch_to_str_utc rnd entry_due_3 8
           narrow_cfg
         = Raise ValueError).
Proof.
  split; split_and!; (reflexivity || (simpl; lia)).
Qed.

(** The last case of the test suite: the recent window has passed and the
    deadline 45 is due at 141. *)
Lemma hard_deadline_needs_update_witness :
  ∃ n,
    get_cache_update_for_item epoch_to_str_utc 0 entry_due_45 141 test_cfg
    = Ok (needs_update_result epoch_to_str_utc "pic_id" (VInt 100) n)
    ∧ ("pic_id" ≠ "status" →
       needs_update_result epoch_to_str_utc "pic_id" (VInt 100) n
         !! "status" = Some (VStr "needs_update")).
Proof.
  apply (hard_deadline_needs_update epoch_to_str_utc 0 entry_due_45 141
           test_cfg 2 45 (VInt 100)).
  - reflexivity.
  - simpl; lia.
  - reflexivity.
  - reflexivity.
  - lia.
  - left. reflexivity.
Defined.

(** C4 as stated fails: with only the deadline due, the next update time
    is 141 + 140 for every draw, where the formula of the draw gives
    141 + 40 and 141 + 41 for the entropies 0 and 1. *)
Lemma deadline_only_counterexample :
  recently_updated 2 141 test_cfg = false
  ∧ get_cache_update_for_item epoch_to_str_utc 0 entry_due_45 141 test_cfg
    = Ok (needs_update_result epoch_to_str_utc "pic_id" (VInt 100) 281)
  ∧ get_next_update_time 0 141 test_cfg = Ok 181
  ∧ get_cache_update_for_item epoch_to_str_utc 1 entry_due_45 141 test_cfg
    = Ok (needs_update_result epoch_to_str_utc "pic_id" (VInt 100) 281)
  ∧ get_next_update_time 1 141 test_cfg = Ok 182.
Proof. split_and!; reflexivity. Qed.

Lemma deadline_only_next_update_witness :
  needs_update_result epoch_to_str_utc "pic_id" (VInt 100) 281
    !! "next_update" = Some (VInt (141 + refresh_interval test_cfg))
  ∧ ∀ rnd',
      get_cache_update_for_item epoch_to_str_utc rnd' entry_due_45 141
        test_cfg
      = Ok (needs_update_result epoch_to_str_utc "pic_id" (VInt 100) 281).
Proof.
  apply (deadline_only_next_update epoch_to_str_utc 0 entry_due_45 141
           test_cfg 2).
  - reflexivity.
  - reflexivity.
  - reflexivity.
  - reflexivity.
Defined.

(** ** The resolver and the refresh *)

Section MutatorFacts.

Variable epoch_to_str : Z → string.

Lemma refresh_item_update_returns rnd item_update updated_item cur cfg :
  recent_interval cfg + increment cfg <= refresh_interval cfg →
  ∃ e, refresh_item_update epoch_to_str rnd item_update updated_item cur cfg
       = Ok e.
Proof.
  intros H. unfold refresh_item_update.
  destruct (get_next_update_time_returns rnd cur cfg H) as (n & -> & _).
  simpl. eauto.
Qed.

(** C8. A record stamped by a refresh has [last_updated = cur_time] and
    [next_update = get_next_update_time(cur_time, policy)]; under the
    policy invariant [0 <= increment <= recent_interval <=
    refresh_interval] its [next_update] is not before its
    [last_updated]. *)
Theorem refresh_next_update_ge_last_updated
    rnd item_update updated_item cur cfg e :
  0 <= increment cfg →
  increment cfg <= recent_interval cfg →
  recent_interval cfg <= refresh_interval cfg →
  refresh_item_update epoch_to_str rnd item_update updated_item cur cfg
  = Ok e →
  ∃ lu nu,
    e !! "last_updated" = Some (VInt lu)
    ∧ e !! "next_update" = Some (VInt nu)
    ∧ lu = cur
    ∧ get_next_update_time rnd cur cfg = Ok nu
    ∧ lu <= nu.
Proof.
  intros Hinc Hrec Href. unfold refresh_item_update.
  destruct (get_next_update_time rnd cur cfg) as [n|] eqn:Hn; [|done].
  simpl. intros [= <-].
  apply get_next_update_time_range in Hn as Hr.
  exists cur, n. unfold update. split_and!; [| |done|done|lia].
  - erewrite lookup_union_Some_l; [done|].
    rewrite !lookup_insert_ne by done. by rewrite lookup_singleton_eq.
  - erewrite lookup_union_Some_l; [done|].
    rewrite lookup_insert_ne by done. by rewrite lookup_insert_eq.
Qed.

End MutatorFacts.

(** A refresh at time 1000 with the entropy 0 under the policy of the
    test suite. *)
Lemma refresh_next_update_ge_last_updated_witness :
  ∃ e,
    refresh_item_update epoch_to_str_utc 0
      (needs_update_result epoch_to_str_utc "pic_id" (VStr "16736042621")
         1140)
      (<["title" := VStr "Sunset"]> ∅) 1000 test_cfg
    = Ok e
    ∧ ∃ lu nu,
        e !! "last_updated" = Some (VInt lu)
        ∧ e !! "next_update" = Some (VInt nu)
        ∧ lu = 1000
        ∧ get_next_update_time 0 1000 test_cfg = Ok nu
        ∧ lu <= nu.
Proof.
  eexists. split; [reflexivity|].
  apply (refresh_next_update_ge_last_updated epoch_to_str_utc 0
           (needs_update_result epoch_to_str_utc "pic_id"
              (VStr "16736042621") 1140)
           (<["title" := VStr "Sunset"]> ∅) 1000 test_cfg).
  - simpl; lia.
  - simpl; lia.
  - simpl; lia.
  - reflexivity.
Defined.

(** The record a refresh stores is the update dictionary of the decision
    with the resolver's fields and the four stamps: a field of the old
    entry survives only if one of these sets it. *)
Lemma refresh_item_update_lookup_None
    rnd epoch_to_str item_update updated_item cur cfg e k :
  refresh_item_update epoch_to_str rnd item_update updated_item cur cfg
  = Ok e →
  item_update !! k = None →
  updated_item !! k = None →
  k ∉ ["last_updated"; "last_updated_str"; "next_update"; "next_update_str"] →
  e !! k = None.
Proof.
  unfold refresh_item_update.
  destruct (get_next_update_time rnd cur cfg) as [n|]; [|done].
  simpl. intros [= <-] Hi Hu Hk. unfold update.
  rewrite !lookup_union_None, !lookup_insert_None, lookup_singleton_None.
  rewrite !elem_of_cons in Hk. split_and!; try done; naive_solver.
Qed.

(** What the resolver hands back: the message of a raised [FlickrError]
    under [flickr_error], nothing for a response whose status is not
    ["ok"]. *)
Lemma get_info_from_flickr_error flickr photo_id msg :
  flickr photo_id = FlickrError msg →
  get_info_from_flickr flickr photo_id = {[ "flickr_error" := VStr msg ]}.
Proof.
  intros H. unfold get_info_from_flickr, update. rewrite H.
  apply (right_id_L ∅ (∪)).
Qed.

Lemma get_info_from_flickr_not_ok flickr photo_id stat photo :
  flickr photo_id = Response stat photo →
  stat ≠ "ok" →
  get_info_from_flickr flickr photo_id = ∅.
Proof.
  intros H Hs. unfold get_info_from_flickr. rewrite H.
  destruct (String.eqb_spec stat "ok"); [done|]. done.
Qed.

(** C5, the code at the failing input.  The store holds one entry with a
    title and an image URL base, last updated at 100 and due at 200; at
    time 1000 the fetch raises [FlickrError].  The message is stored under
    [flickr_error], and the entry is replaced by the update dictionary:
    its [title] and [insert_image_url_base] are gone, its [last_updated]
    and [next_update] are stamped as after a successful refresh.  Had the
    service answered with a failure status instead, the store would be
    unchanged. *)
Theorem fetch_error_replaces_entry :
  ∃ cache' photo' e',
    replace_tag_cache_step epoch_to_str_utc 0 0 flickr_down 1000 test_cfg
      sample_cache sample_photo "16736042621"
    = Ok (cache', photo')
    ∧ cache' !! "16736042621" = Some e'
    ∧ e' !! "flickr_error" = Some (VStr "Error: 0: connection failed")
    ∧ cached_entry !! "title" = Some (VStr "Sunset")
    ∧ e' !! "title" = None
    ∧ e' !! "insert_image_url_base" = None
    ∧ cached_entry !! "last_updated" = Some (VStr "100")
    ∧ e' !! "last_updated" = Some (VInt 1000)
    ∧ cached_entry !! "next_update" = Some (VStr "200")
    ∧ e' !! "next_update" = Some (VInt 1040)
    ∧ ∃ photo'',
        replace_tag_cache_step epoch_to_str_utc 0 0 flickr_not_ok 1000
          test_cfg sample_cache sample_photo "16736042621"
        = Ok (sample_cache, photo'').
Proof.
  eexists _, _, _. split; [reflexivity|].
  split; [reflexivity|].
  split_and!; try reflexivity.
  eexists. reflexivity.
Qed.

(** ** Tag parameters *)

(** The suffixes of the alias table are the six size letters. *)
Lemma photo_suffixes_range size letter :
  photo_suffixes !! size = Some letter →
  letter ∈ ["s"; "t"; "q"; "m"; "z"; "b"].
Proof.
  intros H.
  assert (map_Forall (λ _ l, l ∈ ["s"; "t"; "q"; "m"; "z"; "b"])
            photo_suffixes) as Hall.
  { apply (bool_decide_unpack _); exact I. }
  exact (Hall size letter H).
Qed.

(** A size that is a key of the alias table, spelled as in the table, is
    kept and gets its suffix. *)
Lemma ensure_photo_size_alias photo dflt size letter :
  photo !! "size" = Some (VStr size) →
  photo_suffixes !! size = Some letter →
  ensure_photo_size photo dflt
  = <["size_suffix" := VStr letter]> {[ "size" := VStr size ]}.
Proof.
  intros Hp Hs. unfold ensure_photo_size, get. rewrite Hp.
  cbn [from_option Datatypes.id table_get]. rewrite Hs.
  rewrite bool_decide_eq_true_2 by eauto. cbn [negb].
  rewrite insert_empty, lookup_singleton_eq.
  cbn [from_option Datatypes.id table_get]. by rewrite Hs.
Qed.

(** Anything else, a missing size included, becomes the default size. *)
Lemma ensure_photo_size_default photo dflt :
  table_get photo_suffixes (get photo "size" (VStr "")) = None →
  ensure_photo_size photo dflt
  = <["size_suffix" :=
        match photo_suffixes !! dflt with
        | Some letter => VStr letter
        | None => VNone
        end]> {[ "size" := VStr dflt ]}.
Proof.
  intros H. unfold ensure_photo_size. rewrite H.
  rewrite bool_decide_eq_false_2 by (by intros [? ?]). cbn [negb].
  rewrite insert_empty. unfold get at 1. by rewrite lookup_singleton_eq.
Qed.

Lemma default_size_suffix :
  photo_suffixes !! default_image_size = Some DEFAULT_PHOTO_SUFFIX.
Proof. reflexivity. Qed.

(** C7, the code at the failing input.  The size is looked up as it is
    spelled: ["small"] gets the suffix ["m"], but ["Small"], whose
    lower-case form is in the alias table, is not recognised and becomes
    the default size ["medium"] with the suffix ["z"].  The sibling
    normalisers [ensure_photo_float] and [ensure_photo_show_caption]
    lower-case their parameter first. *)
Theorem ensure_photo_size_case_sensitive :
  ensure_photo_size {[ "size" := VStr "small" ]} default_image_size
  = <["size_suffix" := VStr "m"]> {[ "size" := VStr "small" ]}
  ∧ photo_suffixes !! lower "Small" = Some "m"
  ∧ ensure_photo_size {[ "size" := VStr "Small" ]} default_image_size
    = <["size_suffix" := VStr "z"]> {[ "size" := VStr "medium" ]}
  ∧ ensure_photo_size ∅ default_image_size
    = <["size_suffix" := VStr "z"]> {[ "size" := VStr "medium" ]}.
Proof. split_and!; reflexivity. Qed.



(** ** The decision engine leaves its argument alone *)

Section StoreFacts.

Variable epoch_to_str : Z → string.

Lemma deref_insert_eq (h : gmap positive dict) c d :
  Store.deref (<[c := d]> h) c = d.
Proof. unfold Store.deref. by rewrite lookup_insert_eq. Qed.

Lemma deref_insert_ne (h : gmap positive dict) c l d entry :
  l ≠ c → h !! l = Some entry → Store.deref (<[c := d]> h) l = entry.
Proof.
  intros Hne Hl. unfold Store.deref.
  rewrite lookup_insert_ne by done. by rewrite Hl.
Qed.

(** A run of the store-passing function allocates one object, at the
    first unused address, and writes to that object only.  It returns the
    address exactly when the value-passing function returns, and the
    object then holds the dictionary that function returns. *)
Lemma get_cache_update_for_item_run
    rnd (h : gmap positive dict) l entry cur cfg :
  h !! l = Some entry →
  ∃ d,
    Store.get_cache_update_for_item epoch_to_str rnd l cur cfg h
    = (match get_cache_update_for_item epoch_to_str rnd entry cur cfg with
       | Ok _ => Ok (fresh (dom h))
       | Raise e => Raise e
       end, <[fresh (dom h) := d]> h)
    ∧ ∀ d',
        get_cache_update_for_item epoch_to_str rnd entry cur cfg = Ok d' →
        d = d'.
Proof.
  intros Hl.
  pose proof (is_fresh (dom h)) as Hfresh.
  set (c := fresh (dom h)) in *.
  assert (l ≠ c) as Hne.
  { intros ->. apply Hfresh. apply elem_of_dom. eauto. }
  unfold Store.get_cache_update_for_item, get_cache_update_for_item.
  unfold mbind, Store.st_bind, mret, Store.st_ret, result_bind, result_ret,
    Store.lift, Store.new_dict, Store.dict_setitem, Store.dict_get,
    Store.dict_getitem, Store.dict_update.
  fold c. cbn beta iota zeta.
  rewrite !deref_insert_eq, !insert_insert_eq.
  rewrite !(deref_insert_ne h c l _ entry Hne Hl).
  rewrite insert_empty.
  destruct (make_int (get entry "last_updated" (VInt 0))) as [lu|e];
    [|eexists; split; [reflexivity|discriminate]].
  destruct (cur - lu <? session_interval cfg);
    [eexists; split; [reflexivity|by intros d' [= <-]]|].
  rewrite !(deref_insert_ne h c l _ entry Hne Hl).
  destruct (getitem entry (key_field cfg)) as [id|e];
    [|eexists; split; [reflexivity|discriminate]].
  destruct (recently_updated lu cur cfg).
  - rewrite !deref_insert_eq, !insert_insert_eq, insert_singleton_eq.
    destruct (get_next_update_time rnd cur cfg) as [n|e];
      [|eexists; split; [reflexivity|discriminate]].
    rewrite !(deref_insert_ne h c l _ entry Hne Hl).
    destruct (make_int (get entry "next_update" (VInt (cur + 1))))
      as [nu|e];
      [|eexists; split; [reflexivity|discriminate]].
    destruct (nu <=? cur);
      rewrite ?deref_insert_eq, ?insert_insert_eq, ?insert_singleton_eq;
      unfold getitem; rewrite lookup_singleton_eq;
      rewrite !bool_decide_eq_true_2
        by (done || by rewrite lookup_singleton_eq);
      rewrite ?deref_insert_eq, ?insert_insert_eq;
      (eexists; split; [reflexivity|by intros d' [= <-]]).
  - rewrite !(deref_insert_ne h c l _ entry Hne Hl).
    destruct (make_int (get entry "next_update" (VInt (cur + 1))))
      as [nu|e];
      [|eexists; split; [reflexivity|discriminate]].
    destruct (nu <=? cur);
      rewrite ?deref_insert_eq, ?insert_insert_eq, ?insert_singleton_eq;
      unfold getitem; rewrite lookup_singleton_eq.
    + rewrite !bool_decide_eq_true_2
        by (done || by rewrite lookup_singleton_eq).
      rewrite ?deref_insert_eq, ?insert_insert_eq.
      eexists; split; [reflexivity|by intros d' [= <-]].
    + rewrite !bool_decide_eq_false_2
        by (done || by rewrite lookup_singleton_eq).
      eexists; split; [reflexivity|by intros d' [= <-]].
Qed.

(** C10. A call of [get_cache_update_for_item] on the object [cache_entry]
    leaves that object, and every other object that existed before the
    call, as it was, whether it returns or raises.  What it returns is a
    new object, at an address that was not in use, and the computed fields
    are the content of that object. *)
Theorem get_cache_update_for_item_frame
    rnd (h : gmap positive dict) cache_entry entry cur cfg :
  h !! cache_entry = Some entry →
  ∃ r h',
    Store.get_cache_update_for_item epoch_to_str rnd cache_entry cur cfg h
    = (r, h')
    ∧ h' !! cache_entry = Some entry
    ∧ (∀ l, l ∈ dom h → h' !! l = h !! l)
    ∧ match r with
      | Ok cache_update =>
          cache_update ∉ dom h
          ∧ dom h' = {[ cache_update ]} ∪ dom h
          ∧ get_cache_update_for_item epoch_to_str rnd entry cur cfg
            = Ok (Store.deref h' cache_update)
      | Raise e =>
          get_cache_update_for_item epoch_to_str rnd entry cur cfg
          = Raise e
      end.
Proof.
  intros Hl.
  destruct (get_cache_update_for_item_run rnd h cache_entry entry cur cfg Hl)
    as (d & Hrun & Hd).
  pose proof (is_fresh (dom h)) as Hfresh.
  set (c := fresh (dom h)) in *.
  assert (∀ l, l ∈ dom h → (<[c := d]> h) !! l = h !! l) as Hframe.
  { intros l Hin. apply lookup_insert_ne. by intros ->. }
  eexists _, _. split; [exact Hrun|].
  split; [rewrite Hframe; [done|apply elem_of_dom; eauto]|].
  split; [exact Hframe|].
  destruct (get_cache_update_for_item epoch_to_str rnd entry cur cfg)
    as [d'|e]; [|done].
  split_and!.
  - done.
  - by rewrite dom_insert_L.
  - rewrite deref_insert_eq. by rewrite (Hd d' eq_refl).
Qed.

End StoreFacts.

(** The last case of the test suite, with the entry at address 1 of a heap
    that also holds another dictionary. *)
Lemma get_cache_update_for_item_frame_witness :
  ∃ r h',
    Store.get_cache_update_for_item epoch_to_str_utc 0 1%positive 141
      test_cfg sample_heap
    = (r, h')
    ∧ h' !! 1%positive = Some entry_due_45
    ∧ (∀ l : positive, l ∈ dom sample_heap → h' !! l = sample_heap !! l)
    ∧ match r with
      | Ok cache_update =>
          (cache_update ∉ dom sample_heap)
          ∧ dom h' = {[ cache_update ]} ∪ dom sample_heap
          ∧ get_cache_update_for_item epoch_to_str_utc 0 entry_due_45 141
              test_cfg
            = Ok (Store.deref h' cache_update)
      | Raise e =>
          get_cache_update_for_item epoch_to_str_utc 0 entry_due_45 141
            test_cfg
          = Raise e
      end.
Proof.
  apply (get_cache_update_for_item_frame epoch_to_str_utc 0 sample_heap
           1%positive entry_due_45 141 test_cfg).
  reflexivity.
Defined.

(** ** The record store *)

Lemma cr_free_String c s : cr_free (String c s) ↔ c ≠ CR ∧ cr_free s.
Proof.
  unfold cr_free. cbn [list_ascii_of_string]. rewrite not_elem_of_cons.
  split; intros [H1 H2]; split; congruence.
Qed.

(** A text without a carriage return is read as it is. *)
Lemma universal_newlines_cr_free s : cr_free s → universal_newlines s = s.
Proof.
  induction s as [|c s IH]; [done|].
  rewrite cr_free_String. intros [Hc Hs]. cbn [universal_newlines].
  destruct (Ascii.eqb_spec c CR) as [->|_]; [done|].
  by rewrite IH.
Qed.

(** What is read has no carriage return. *)
Lemma universal_newlines_is_cr_free s : cr_free (universal_newlines s).
Proof.
  assert (cr_free (universal_newlines s)
          ∧ ∀ c, cr_free (universal_newlines (String c s))) as [H _];
    [|done].
  induction s as [|c' s [IH1 IH2]].
  - split; [by apply not_elem_of_nil|].
    intros c. cbn [universal_newlines].
    destruct (Ascii.eqb_spec c CR) as [->|Hc];
      apply cr_free_String; (split; [done|by apply not_elem_of_nil]).
  - split; [apply IH2|].
    intros c. change (universal_newlines (String c (String c' s)))
      with (if Ascii.eqb c CR
            then if Ascii.eqb c' LF
                 then String LF (universal_newlines s)
                 else String LF (universal_newlines (String c' s))
            else String c (universal_newlines (String c' s))).
    destruct (Ascii.eqb_spec c CR) as [->|Hc].
    + destruct (Ascii.eqb c' LF); apply cr_free_String; by split.
    + apply cr_free_String. by split.
Qed.

Lemma universal_newlines_idemp s :
  universal_newlines (universal_newlines s) = universal_newlines s.
Proof. apply universal_newlines_cr_free, universal_newlines_is_cr_free. Qed.

Lemma fmap_universal_newlines_cr_free (l : list string) :
  Forall cr_free l → universal_newlines <$> l = l.
Proof.
  induction 1 as [|s l Hs _ IH]; [done|].
  cbn [fmap list_fmap]. rewrite universal_newlines_cr_free by done.
  f_equal. exact IH.
Qed.

Lemma zip_insert_lookup (g : string → string) cols (acc : dict) f :
  foldl (λ d kv, <[kv.1 := VStr kv.2]> d) acc (zip cols (g <$> cols)) !! f
  = if bool_decide (f ∈ cols) then Some (VStr (g f)) else acc !! f.
Proof.
  revert acc. induction cols as [|c cs IH]; intros acc.
  - by rewrite bool_decide_eq_false_2 by apply not_elem_of_nil.
  - change (foldl (λ d kv, <[kv.1 := VStr kv.2]> d)
              (<[c := VStr (g c)]> acc) (zip cs (g <$> cs)) !! f
            = if bool_decide (f ∈ c :: cs) then Some (VStr (g f))
              else acc !! f).
    rewrite IH. destruct (decide (f ∈ cs)) as [Hin|Hnin].
    + rewrite !bool_decide_eq_true_2; [done|by right|done].
    + rewrite (bool_decide_eq_false_2 (f ∈ cs)) by done.
      destruct (decide (f = c)) as [->|Hne].
      * rewrite bool_decide_eq_true_2 by left. by rewrite lookup_insert_eq.
      * rewrite bool_decide_eq_false_2
          by (by intros [->|?]%elem_of_cons).
        by rewrite lookup_insert_ne.
Qed.

(** A row with a cell for every column has no surplus. *)
Lemma DictReader_row_full cols row :
  length row = length cols →
  DictReader_row cols row = plain_row (zip_row cols row).
Proof.
  intros Hlen. unfold DictReader_row, plain_row. f_equal.
  rewrite Hlen. apply decide_False. lia.
Qed.

Lemma read_written_row cols entry :
  universal_newlines <$> writerow cols entry
  = (λ f, universal_newlines (cell_of (get entry f (VStr "")))) <$> cols.
Proof. unfold writerow. by rewrite <- list_fmap_compose. Qed.

(** A record written under the columns [cols] and read back: every column
    is present and holds the text of the cell as it is read, nothing else
    is present. *)
Lemma reread_lookup cols entry f :
  reread cols entry !! f
  = if bool_decide (f ∈ cols)
    then Some (VStr (universal_newlines (cell_of (get entry f (VStr "")))))
    else None.
Proof.
  unfold reread, zip_row. rewrite read_written_row.
  rewrite length_fmap, drop_all. cbn [foldl].
  by rewrite (zip_insert_lookup
                (λ f, universal_newlines (cell_of (get entry f (VStr ""))))).
Qed.

Lemma as_loaded_empty : as_loaded ∅ = ∅.
Proof. unfold as_loaded. by rewrite fmap_empty, (kmap_empty VStr). Qed.

Lemma as_loaded_insert k e (cache : gmap string dict) :
  as_loaded (<[k := e]> cache) = <[VStr k := plain_row e]> (as_loaded cache).
Proof. unfold as_loaded. by rewrite fmap_insert, (kmap_insert VStr). Qed.

Lemma as_loaded_lookup (cache : gmap string dict) k :
  as_loaded cache !! VStr k = plain_row <$> cache !! k.
Proof. unfold as_loaded. by rewrite (lookup_kmap VStr), lookup_fmap. Qed.

(** The rows of a saved store, read: each record goes in under the text
    read from its key cell. *)
Lemma read_rows_written cols key_name (items : list (string * dict)) c0 :
  key_name ∈ cols →
  read_rows cols key_name
    ((λ item, universal_newlines <$> writerow cols item.2) <$> items)
    (as_loaded c0)
  = Ok (as_loaded
          (foldl (λ c item,
                    <[universal_newlines
                        (cell_of (get item.2 key_name (VStr "")))
                      := reread cols item.2]> c)
             c0 items)).
Proof.
  intros Hkey. revert c0.
  induction items as [|[k e] items IH]; intros c0; [done|].
  cbn [fmap list_fmap read_rows foldl snd].
  rewrite bool_decide_eq_false_2.
  2:{ unfold writerow.
      destruct cols; [by apply not_elem_of_nil in Hkey|done]. }
  cbv zeta. rewrite DictReader_row_full
    by (unfold writerow; by rewrite !length_fmap).
  cbn [row_dict plain_row]. unfold getitem.
  change (zip_row cols (universal_newlines <$> writerow cols e))
    with (reread cols e).
  rewrite reread_lookup, bool_decide_eq_true_2 by done.
  cbn [mbind result_bind]. rewrite <- as_loaded_insert. apply IH.
Qed.

Lemma foldl_insert_lookup {A B : Type} (D : A → B)
    (items : list (string * A)) (acc : gmap string B) k :
  NoDup items.*1 →
  foldl (λ acc item, <[item.1 := D item.2]> acc) acc items !! k
  = match (list_to_map items : gmap string A) !! k with
    | Some e => Some (D e)
    | None => acc !! k
    end.
Proof.
  revert acc. induction items as [|[k0 e0] items IH]; intros acc Hnd.
  - simpl. by rewrite lookup_empty.
  - apply NoDup_cons in Hnd as [Hk0 Hnd]. simpl.
    rewrite IH by done. destruct (decide (k = k0)) as [->|Hne].
    + rewrite (not_elem_of_list_to_map_1 items k0 Hk0).
      by rewrite !lookup_insert_eq.
    + by rewrite !lookup_insert_ne.
Qed.

Lemma foldl_insert_keys {A B : Type} (K1 K2 : A → string) (D : A → B)
    (items : list A) (acc : gmap string B) :
  Forall (λ item, K1 item = K2 item) items →
  foldl (λ acc item, <[K1 item := D item]> acc) acc items
  = foldl (λ acc item, <[K2 item := D item]> acc) acc items.
Proof.
  intros H. revert acc.
  induction H as [|item items Hk _ IH]; intros acc; [done|].
  cbn [foldl]. rewrite Hk. apply IH.
Qed.

Lemma sorted_items_Permutation (cache : gmap string dict) :
  sorted_items cache ≡ₚ map_to_list cache.
Proof. apply merge_sort_Permutation. Qed.

Lemma list_to_map_sorted_items (cache : gmap string dict) :
  list_to_map (sorted_items cache) = cache.
Proof.
  rewrite <- (list_to_map_to_list cache) at 2.
  apply list_to_map_proper.
  - rewrite sorted_items_Permutation. apply NoDup_fst_map_to_list.
  - apply sorted_items_Permutation.
Qed.

(** The rows are written in the order of their keys. *)
Lemma sorted_items_Sorted (cache : gmap string dict) :
  Sorted key_le (sorted_items cache).
Proof.
  apply Sorted_merge_sort.
  intros a b. unfold key_le. apply String.leb_total.
Qed.

(** Saving and loading again, when no column name has a carriage
    return: the records go in one by one, in the order of the keys they
    were saved under, each under the text read from its key cell. *)
Lemma load_saved_rows cache filename fieldnames key_name (fs : files) :
  Forall cr_free (key_name :: fieldnames) →
  load_cache_from_csv filename key_name
    (save_cache_to_csv cache filename fieldnames key_name fs)
  = (Ok (as_loaded
           (foldl (λ c item,
                     <[universal_newlines
                         (cell_of (get item.2 key_name (VStr "")))
                       := reread (key_name :: fieldnames) item.2]> c)
              ∅ (sorted_items cache))),
     save_cache_to_csv cache filename fieldnames key_name fs).
Proof.
  intros Hcols. unfold load_cache_from_csv.
  unfold save_cache_to_csv at 1. rewrite lookup_insert_eq.
  unfold read_text. rewrite fmap_cons.
  rewrite fmap_universal_newlines_cr_free by done.
  rewrite <- list_fmap_compose. f_equal.
  rewrite <- as_loaded_empty. apply read_rows_written. left.
Qed.

(** The same for a store whose entries carry their own key, free of
    carriage returns, in the key field. *)
Lemma load_saved_cache cache filename fieldnames key_name (fs : files) :
  Forall cr_free (key_name :: fieldnames) →
  map_Forall (λ k e, cell_of (get e key_name (VStr "")) = k ∧ cr_free k)
    cache →
  load_cache_from_csv filename key_name
    (save_cache_to_csv cache filename fieldnames key_name fs)
  = (Ok (as_loaded (reread (key_name :: fieldnames) <$> cache)),
     save_cache_to_csv cache filename fieldnames key_name fs).
Proof.
  intros Hcols Hkeys. rewrite load_saved_rows by done.
  do 3 f_equal.
  rewrite (foldl_insert_keys _ fst).
  - apply map_eq. intros k.
    rewrite (foldl_insert_lookup (reread (key_name :: fieldnames))).
    + rewrite list_to_map_sorted_items, lookup_fmap, lookup_empty.
      by destruct (cache !! k).
    + rewrite sorted_items_Permutation. apply NoDup_fst_map_to_list.
  - apply Forall_forall. intros [k e] Hin.
    rewrite sorted_items_Permutation in Hin.
    apply elem_of_map_to_list in Hin.
    destruct (Hkeys k e Hin) as [Hk Hcr]. cbn [fst snd].
    rewrite Hk. by apply universal_newlines_cr_free.
Qed.




(** ** Text and integers *)

Lemma list_ascii_of_string_app s1 s2 :
  list_ascii_of_string (s1 ++ s2)
  = (list_ascii_of_string s1 ++ list_ascii_of_string s2)%list.
Proof. induction s1 as [|c s1 IH]; [done|]. simpl. by rewrite IH. Qed.

Lemma lstrip_blank ws l :
  Forall (λ c, is_space c = true) ws → lstrip (ws ++ l) = lstrip l.
Proof. induction 1 as [|c ws Hc _ IH]; [done|]. simpl. by rewrite Hc. Qed.

Lemma lstrip_all_blank ws :
  Forall (λ c, is_space c = true) ws → lstrip ws = [].
Proof.
  intros H. rewrite <- (app_nil_r ws). by rewrite lstrip_blank.
Qed.

Lemma lstrip_solid l :
  head l ≠ None → (∀ c, head l = Some c → is_space c = false) →
  lstrip l = l.
Proof.
  destruct l as [|c l]; [done|]. intros _ H. simpl.
  by rewrite (H c eq_refl).
Qed.

Lemma strip_list ws1 core ws2 :
  Forall (λ c, is_space c = true) ws1 →
  Forall (λ c, is_space c = true) ws2 →
  Forall (λ c, is_space c = false) core →
  rev (lstrip (rev (lstrip (ws1 ++ core ++ ws2)))) = core.
Proof.
  intros H1 H2 Hc. rewrite lstrip_blank by done.
  destruct core as [|c l].
  - cbn [app]. by rewrite (lstrip_all_blank ws2).
  - assert (lstrip ((c :: l) ++ ws2) = (c :: l) ++ ws2)%list as ->.
    { simpl. by rewrite (Forall_inv Hc). }
    rewrite rev_app_distr, lstrip_blank by (by apply Forall_rev).
    rewrite lstrip_solid.
    + by rewrite rev_involutive.
    + destruct (rev (c :: l)) eqn:Hr; [|done].
      apply (f_equal (@rev _)) in Hr. by rewrite rev_involutive in Hr.
    + intros a Ha. apply Forall_rev in Hc.
      destruct (rev (c :: l)); simplify_eq/=. by apply Forall_inv in Hc.
Qed.

(** [strip] removes the white space around a text that holds none. *)
Lemma strip_around ws1 core ws2 :
  blank ws1 → blank ws2 →
  Forall (λ c, is_space c = false) (list_ascii_of_string core) →
  strip (ws1 ++ core ++ ws2) = core.
Proof.
  unfold blank, strip. intros H1 H2 Hc.
  rewrite !list_ascii_of_string_app, strip_list by done.
  apply string_of_list_ascii_of_string.
Qed.

Lemma strip_solid core :
  Forall (λ c, is_space c = false) (list_ascii_of_string core) →
  strip core = core.
Proof.
  unfold strip. intros Hc.
  pose proof (strip_list [] (list_ascii_of_string core) []
                ltac:(constructor) ltac:(constructor) Hc) as H.
  cbn [app] in H. rewrite app_nil_r in H. rewrite H.
  apply string_of_list_ascii_of_string.
Qed.

Lemma strip_blank s : blank s → strip s = "".
Proof.
  unfold blank, strip. intros H.
  by rewrite (lstrip_all_blank (list_ascii_of_string s)).
Qed.

(** The characters of a decimal numeral. *)
Lemma parse_digits_acc d (acc : positive) :
  parse_digits (Z.pos acc) true
    (list_ascii_of_string (NilEmpty.string_of_uint d))
  = Some (Z.pos (Pos.of_uint_acc d acc)).
Proof.
  revert acc. induction d; intros acc; [done|..];
    cbn [NilEmpty.string_of_uint list_ascii_of_string Pos.of_uint_acc];
    unfold parse_digits; fold parse_digits;
    match goal with
    | |- context [digit_of ?c] =>
        let v := eval compute in (digit_of c) in change (digit_of c) with v
    end;
    cbv iota beta; rewrite <- IHd; f_equal; lia.
Qed.

Lemma parse_digits_uint d b :
  d ≠ Decimal.Nil ∨ b = true →
  parse_digits 0 b (list_ascii_of_string (NilEmpty.string_of_uint d))
  = Some (Z.of_N (Pos.of_uint d)).
Proof.
  revert b. induction d; intros b Hb.
  - destruct Hb as [?| ->]; done.
  - apply (IHd true). by right.
  - apply (parse_digits_acc d 1).
  - apply (parse_digits_acc d 2).
  - apply (parse_digits_acc d 3).
  - apply (parse_digits_acc d 4).
  - apply (parse_digits_acc d 5).
  - apply (parse_digits_acc d 6).
  - apply (parse_digits_acc d 7).
  - apply (parse_digits_acc d 8).
  - apply (parse_digits_acc d 9).
Qed.

Lemma parse_digits_nilzero d :
  parse_digits 0 false (list_ascii_of_string (NilZero.string_of_uint d))
  = Some (Z.of_uint d).
Proof.
  destruct d; [reflexivity|..];
    match goal with
    | |- context [NilZero.string_of_uint ?x] =>
        apply (parse_digits_uint x false); by left
    end.
Qed.

Lemma int_of_str_digit c s :
  digit_of c ≠ None →
  int_of_str (String c s)
  = match parse_digits 0 false (c :: list_ascii_of_string s) with
    | Some n => Ok n
    | None => Raise ValueError
    end.
Proof.
  intros Hc. unfold int_of_str. cbn [list_ascii_of_string].
  destruct (Ascii.eqb_spec c "-") as [->|_]; [done|].
  destruct (Ascii.eqb_spec c "+") as [->|_]; done.
Qed.

Lemma int_of_str_string_of_int i :
  int_of_str (NilZero.string_of_int i) = Ok (Z.of_int i).
Proof.
  destruct i as [d|d]; cbn [NilZero.string_of_int Z.of_int].
  - pose proof (parse_digits_nilzero d) as H.
    destruct d; [reflexivity|..];
      (cbn [NilZero.string_of_uint NilEmpty.string_of_uint] in *;
       rewrite int_of_str_digit by done;
       cbn [list_ascii_of_string] in H; by rewrite H).
  - unfold int_of_str. cbn [list_ascii_of_string].
    change (Ascii.eqb "-" "-") with true. cbv iota.
    by rewrite parse_digits_nilzero.
Qed.

Lemma string_of_uint_solid d :
  Forall (λ c, is_space c = false)
    (list_ascii_of_string (NilEmpty.string_of_uint d)).
Proof. induction d; [constructor|..]; by constructor. Qed.

Lemma str_of_int_solid n :
  Forall (λ c, is_space c = false) (list_ascii_of_string (str_of_int n)).
Proof.
  unfold str_of_int.
  assert (∀ d, Forall (λ c, is_space c = false)
                 (list_ascii_of_string (NilZero.string_of_uint d))) as Hu.
  { intros d. destruct d; try apply string_of_uint_solid.
    by repeat constructor. }
  destruct (Z.to_int n); cbn [NilZero.string_of_int list_ascii_of_string].
  - apply Hu.
  - constructor; [done|apply Hu].
Qed.

Lemma str_of_int_nonempty n : str_of_int n ≠ "".
Proof.
  unfold str_of_int.
  destruct (Z.to_int n) as [d|d]; [|done].
  by destruct d.
Qed.

Lemma int_of_str_of_int n : int_of_str (str_of_int n) = Ok n.
Proof.
  unfold str_of_int. rewrite int_of_str_string_of_int.
  by rewrite DecimalZ.of_to.
Qed.

Lemma make_int_cell_of_int n : make_int (VStr (str_of_int n)) = Ok n.
Proof.
  unfold make_int. rewrite strip_solid by apply str_of_int_solid.
  destruct (String.eqb_spec (str_of_int n) "") as [H|_].
  - by apply str_of_int_nonempty in H.
  - apply int_of_str_of_int.
Qed.

(** X1.  White space around the decimal text of an integer is ignored:
    [make_int] reads the text that [str] gives for an integer, with any
    white space before and after it, as that integer. *)
Theorem make_int_str_of_int ws1 ws2 n :
  blank ws1 → blank ws2 →
  make_int (VStr (ws1 ++ str_of_int n ++ ws2)) = Ok n.
Proof.
  intros H1 H2. rewrite <- (make_int_cell_of_int n). unfold make_int.
  rewrite strip_around by (done || apply str_of_int_solid).
  by rewrite strip_solid by apply str_of_int_solid.
Qed.

Lemma make_int_str_of_int_witness :
  make_int (VStr (" " ++ str_of_int (-1040) ++ newline)) = Ok (-1040).
Proof.
  apply (make_int_str_of_int " " newline (-1040)).
  - by repeat constructor.
  - by repeat constructor.
Defined.

(** X2.  A text of white space only, the empty text included, is read as
    0. *)
Theorem make_int_blank s : blank s → make_int (VStr s) = Ok 0.
Proof. intros H. unfold make_int. by rewrite strip_blank. Qed.

Lemma make_int_blank_witness : make_int (VStr "  ") = Ok 0.
Proof. apply (make_int_blank "  "). by repeat constructor. Defined.

(** ** Tag parameters, continued *)

Lemma photo_suffixes_empty : photo_suffixes !! "" = None.
Proof. reflexivity. Qed.

(** [ensure_photo_size] in one equation: the size is the given one when
    it is an alias, the default otherwise, and the suffix is looked up
    for it. *)
Lemma ensure_photo_size_eq photo dflt :
  ensure_photo_size photo dflt
  = let size :=
      match photo !! "size" with
      | Some (VStr s) =>
          match photo_suffixes !! s with Some _ => s | None => dflt end
      | _ => dflt
      end in
    <["size_suffix" :=
        match photo_suffixes !! size with
        | Some letter => VStr letter
        | None => VNone
        end]> {[ "size" := VStr size ]}.
Proof.
  cbv zeta.
  destruct (photo !! "size") as [v|] eqn:Hp.
  - destruct v as [n|s|b|];
      try (rewrite ensure_photo_size_default;
           [done|unfold get; by rewrite Hp]).
    destruct (photo_suffixes !! s) as [letter|] eqn:Hs.
    + rewrite (ensure_photo_size_alias photo dflt s letter) by done.
      by rewrite Hs.
    + rewrite ensure_photo_size_default; [done|].
      unfold get. by rewrite Hp.
  - rewrite ensure_photo_size_default; [done|].
    unfold get. rewrite Hp. apply photo_suffixes_empty.
Qed.

Lemma ensure_photo_size_cases photo dflt :
  is_Some (photo_suffixes !! dflt) →
  ∃ size letter,
    ensure_photo_size photo dflt
    = <["size_suffix" := VStr letter]> {[ "size" := VStr size ]}
    ∧ photo_suffixes !! size = Some letter
    ∧ letter ∈ ["s"; "t"; "q"; "m"; "z"; "b"]
    ∧ (photo !! "size" = Some (VStr size) ∨ size = dflt).
Proof.
  intros [dl Hd]. rewrite ensure_photo_size_eq. cbv zeta.
  destruct (photo !! "size") as [[n|s|b|]|] eqn:Hp;
    try (exists dflt, dl; rewrite Hd;
         split_and!; [done|done|by eapply photo_suffixes_range|by right]).
  destruct (photo_suffixes !! s) as [letter|] eqn:Hs.
  - exists s, letter. rewrite Hs.
    split_and!; [done|done|by eapply photo_suffixes_range|by left].
  - exists dflt, dl. rewrite Hd.
    split_and!; [done|done|by eapply photo_suffixes_range|by right].
Qed.

(** X3.  The size handed back is an alias of the table and the suffix is
    its letter, one of the six, provided the default size is an alias. *)
Theorem ensure_photo_size_normal photo dflt :
  is_Some (photo_suffixes !! dflt) →
  ∃ size letter,
    ensure_photo_size photo dflt
    = <["size_suffix" := VStr letter]> {[ "size" := VStr size ]}
    ∧ photo_suffixes !! size = Some letter
    ∧ letter ∈ ["s"; "t"; "q"; "m"; "z"; "b"]
    ∧ (photo !! "size" = Some (VStr size) ∨ size = dflt).
Proof. apply ensure_photo_size_cases. Qed.

Lemma ensure_photo_size_normal_witness :
  ∃ size letter,
    ensure_photo_size {[ "size" := VStr "sq75" ]} default_image_size
    = <["size_suffix" := VStr letter]> {[ "size" := VStr size ]}
    ∧ photo_suffixes !! size = Some letter
    ∧ letter ∈ ["s"; "t"; "q"; "m"; "z"; "b"]
    ∧ (({[ "size" := VStr "sq75" ]} : dict) !! "size" = Some (VStr size)
       ∨ size = default_image_size).
Proof.
  apply (ensure_photo_size_normal {[ "size" := VStr "sq75" ]}
           default_image_size).
  exists "z". reflexivity.
Defined.

Lemma update_lookup (d u : dict) k :
  update d u !! k = match u !! k with Some v => Some v | None => d !! k end.
Proof.
  unfold update. destruct (u !! k) as [v|] eqn:Hu.
  - by apply lookup_union_Some_l.
  - by apply lookup_union_r.
Qed.

Lemma ensure_photo_size_lookup_size photo dflt :
  ∃ size,
    ensure_photo_size photo dflt !! "size" = Some (VStr size)
    ∧ ensure_photo_size photo dflt
      = <["size_suffix" :=
            match photo_suffixes !! size with
            | Some letter => VStr letter
            | None => VNone
            end]> {[ "size" := VStr size ]}
    ∧ (photo_suffixes !! size = None → size = dflt).
Proof.
  rewrite ensure_photo_size_eq. cbv zeta. eexists. split_and!; [|done|].
  - rewrite lookup_insert_ne by done. by rewrite lookup_singleton_eq.
  - destruct (photo !! "size") as [[n|s|b|]|]; try done.
    destruct (photo_suffixes !! s) eqn:Hs; [|done]. by rewrite Hs.
Qed.

(** X4.  Tidying the size a second time changes nothing. *)
Theorem ensure_photo_size_idempotent photo dflt :
  ensure_photo_size (update photo (ensure_photo_size photo dflt)) dflt
  = ensure_photo_size photo dflt.
Proof.
  destruct (ensure_photo_size_lookup_size photo dflt)
    as (size & Hsize & Heq & Hdflt).
  rewrite (ensure_photo_size_eq (update _ _)). cbv zeta.
  rewrite update_lookup, Hsize, Heq.
  destruct (photo_suffixes !! size) as [letter|] eqn:Hs.
  - by rewrite Hs.
  - rewrite (Hdflt eq_refl) in *. by rewrite Hs.
Qed.

(** ** The float *)

Lemma lower_left_right v : v ∈ ["left"; "right"] → lower v = v.
Proof. rewrite !elem_of_cons, elem_of_nil. by intros [->|[->|[]]]. Qed.

Lemma ensure_photo_float_cases photo :
  match ensure_photo_float photo with
  | Ok d =>
      ∃ v, d = {[ "float" := VStr v ]}
           ∧ v ∈ ["left"; "right"; ""]
           ∧ (photo !! "float" = None
              ∨ ∃ s, photo !! "float" = Some (VStr s)
                     ∧ (v = lower s ∨ v = ""))
  | Raise e =>
      e = AttributeError
      ∧ ∃ v, photo !! "float" = Some v ∧ ∀ s, v ≠ VStr s
  end.
Proof.
  unfold ensure_photo_float, get.
  destruct (photo !! "float") as [[n|s|b|]|] eqn:Hp;
    cbn [from_option Datatypes.id]; cbv zeta;
    try (split; [done|]; eexists; split; [done|]; done).
  - destruct (decide (lower s ∈ ["left"; "right"])) as [Hin|Hnin].
    + rewrite bool_decide_eq_true_2 by done. cbn [negb].
      exists (lower s). rewrite insert_empty. split_and!; [done| |eauto].
      rewrite !elem_of_cons in *. tauto.
    + rewrite bool_decide_eq_false_2 by done. cbn [negb].
      exists "". rewrite insert_empty. split_and!; [done| |eauto].
      rewrite !elem_of_cons. tauto.
  - exists "". split_and!; [done| |by left].
    rewrite !elem_of_cons. tauto.
Qed.

(** X5.  What [ensure_photo_float] hands back is ["left"], ["right"] or
    the empty string, and it raises exactly when the parameter is not a
    string. *)
Theorem ensure_photo_float_range photo :
  match ensure_photo_float photo with
  | Ok d =>
      ∃ v, d = {[ "float" := VStr v ]}
           ∧ v ∈ ["left"; "right"; ""]
           ∧ (photo !! "float" = None
              ∨ ∃ s, photo !! "float" = Some (VStr s)
                     ∧ (v = lower s ∨ v = ""))
  | Raise e =>
      e = AttributeError
      ∧ ∃ v, photo !! "float" = Some v ∧ ∀ s, v ≠ VStr s
  end.
Proof. apply ensure_photo_float_cases. Qed.

(** X6.  Tidying the float a second time changes nothing. *)
Theorem ensure_photo_float_idempotent photo d :
  ensure_photo_float photo = Ok d →
  ensure_photo_float (update photo d) = Ok d.
Proof.
  intros Hd. pose proof (ensure_photo_float_cases photo) as H.
  rewrite Hd in H. destruct H as (v & -> & Hv & _).
  unfold ensure_photo_float, get.
  rewrite update_lookup, lookup_singleton_eq. cbn [from_option Datatypes.id].
  rewrite !elem_of_cons, elem_of_nil in Hv.
  destruct Hv as [->|[->|[->|[]]]]; reflexivity.
Qed.

Lemma ensure_photo_float_idempotent_witness :
  ensure_photo_float
    (update {[ "float" := VStr "Left" ]} {[ "float" := VStr "left" ]})
  = Ok {[ "float" := VStr "left" ]}.
Proof.
  apply (ensure_photo_float_idempotent {[ "float" := VStr "Left" ]}).
  reflexivity.
Defined.

(** ** The caption and the image URL after the size *)

Lemma caption_for_size_letter letter :
  letter ∈ ["s"; "t"; "q"; "m"; "z"; "b"] →
  caption_for_size !! letter = Some (bool_decide (letter ∈ ["z"; "b"])).
Proof.
  intros H.
  repeat (apply elem_of_cons in H as [->|H]; [reflexivity|]).
  by apply elem_of_nil in H.
Qed.

(** The caption when neither parameter is given: the default for the
    size suffix. *)
Lemma ensure_photo_show_caption_default photo :
  photo !! "caption" = None →
  photo !! "show_caption" = None →
  ensure_photo_show_caption photo
  = match table_get caption_for_size
            (get photo "size_suffix" (VStr DEFAULT_PHOTO_SUFFIX)) with
    | Some caption => Ok {[ "show_caption" := VBool caption ]}
    | None =>
        Raise (KeyError (get photo "size_suffix" (VStr DEFAULT_PHOTO_SUFFIX)))
    end.
Proof.
  intros Hc Hsc. unfold ensure_photo_show_caption, specified_caption, get.
  rewrite Hc, Hsc. cbn [from_option Datatypes.id truthy].
  destruct (table_get caption_for_size _); [|done].
  by rewrite insert_empty.
Qed.

(** What [ensure_photo_show_caption] hands back is a truth value. *)
Lemma ensure_photo_show_caption_bool photo d :
  ensure_photo_show_caption photo = Ok d →
  ∃ caption, d = {[ "show_caption" := VBool caption ]}.
Proof.
  unfold ensure_photo_show_caption.
  destruct (truthy (specified_caption photo)).
  - destruct (specified_caption photo); try done.
    intros [= <-]. rewrite insert_empty. eauto.
  - destruct (table_get caption_for_size _); [|done].
    intros [= <-]. rewrite insert_empty. eauto.
Qed.

(** X7.  Without a caption parameter the caption follows the size: once
    the size is tidied, the caption is shown for the suffixes [z] and [b]
    and for no other, and the look-up cannot fail. *)
Theorem caption_default_by_size photo dflt :
  is_Some (photo_suffixes !! dflt) →
  photo !! "caption" = None →
  photo !! "show_caption" = None →
  ∃ letter,
    ensure_photo_size photo dflt !! "size_suffix" = Some (VStr letter)
    ∧ ensure_photo_show_caption (update photo (ensure_photo_size photo dflt))
      = Ok {[ "show_caption" := VBool (bool_decide (letter ∈ ["z"; "b"])) ]}.
Proof.
  intros Hd Hc Hsc.
  destruct (ensure_photo_size_cases photo dflt Hd)
    as (size & letter & -> & _ & Hletter & _).
  exists letter. split; [by rewrite lookup_insert_eq|].
  rewrite ensure_photo_show_caption_default.
  - unfold get. rewrite update_lookup, lookup_insert_eq.
    cbn [from_option Datatypes.id table_get].
    by rewrite caption_for_size_letter.
  - rewrite update_lookup.
    by rewrite lookup_insert_ne, lookup_singleton_ne.
  - rewrite update_lookup.
    by rewrite lookup_insert_ne, lookup_singleton_ne.
Qed.

(** ** The record store, continued *)

Lemma sorted_items_empty : sorted_items ∅ = [].
Proof. unfold sorted_items. by rewrite map_to_list_empty. Qed.

(** A file of at most one row, the header, holds no record. *)
Lemma load_cache_no_data filename key_name (fs : files) rows :
  fs !! filename = Some rows →
  (length rows ≤ 1)%nat →
  load_cache_from_csv filename key_name fs = (Ok ∅, fs).
Proof.
  intros Hfs Hlen. unfold load_cache_from_csv. rewrite Hfs.
  destruct rows as [|header [|row rows]]; [done|done|].
  cbn [length] in Hlen. lia.
Qed.

(** X8.  Loading a file that does not exist gives the empty store and
    creates the file with the single column [id], whatever the key column
    asked for; the other files are left alone, and a second load finds the
    file and writes nothing.  So does the load of any other file that has
    no row after its header, whatever the header. *)
Theorem load_cache_missing_file filename key_name (fs : files) :
  fs !! filename = None →
  ∃ fs',
    load_cache_from_csv filename key_name fs = (Ok ∅, fs')
    ∧ fs' !! filename = Some [["id"]]
    ∧ (∀ f, f ≠ filename → fs' !! f = fs !! f)
    ∧ load_cache_from_csv filename key_name fs' = (Ok ∅, fs')
    ∧ ∀ f rows, fs !! f = Some rows → (length rows ≤ 1)%nat →
        load_cache_from_csv f key_name fs' = (Ok ∅, fs').
Proof.
  intros Hfs. unfold load_cache_from_csv at 1. rewrite Hfs.
  unfold save_cache_to_csv. rewrite sorted_items_empty.
  eexists. split; [reflexivity|]. rewrite lookup_insert_eq.
  split_and!; [done| | |].
  - intros f Hf. by rewrite lookup_insert_ne.
  - apply (load_cache_no_data _ _ _ [["id"]]); [|done].
    by rewrite lookup_insert_eq.
  - intros f rows Hf Hlen. apply (load_cache_no_data _ _ _ rows); [|done].
    rewrite lookup_insert_ne; [done|]. intros <-. congruence.
Qed.

Lemma load_cache_missing_file_witness :
  ∃ fs',
    load_cache_from_csv "flickr_insert_cache.csv" "pic_id" other_files
    = (Ok ∅, fs')
    ∧ fs' !! "flickr_insert_cache.csv" = Some [["id"]]
    ∧ (∀ f, f ≠ "flickr_insert_cache.csv" → fs' !! f = other_files !! f)
    ∧ load_cache_from_csv "flickr_insert_cache.csv" "pic_id" fs'
      = (Ok ∅, fs')
    ∧ ∀ f rows, other_files !! f = Some rows → (length rows ≤ 1)%nat →
        load_cache_from_csv f "pic_id" fs' = (Ok ∅, fs').
Proof.
  apply (load_cache_missing_file "flickr_insert_cache.csv" "pic_id"
           other_files).
  reflexivity.
Defined.

(** X9.  The file that [save_cache_to_csv] writes: the header is the key
    column followed by the configured fields; there is one row for each
    record, in the order of the keys of the store, with a cell for every
    column; and no other file is touched. *)
Theorem save_cache_file_shape
    (cache : gmap string dict) filename fieldnames key_name (fs : files) :
  ∃ items,
    save_cache_to_csv cache filename fieldnames key_name fs !! filename
    = Some ((key_name :: fieldnames)
              :: ((λ item, writerow (key_name :: fieldnames) item.2)
                    <$> items))
    ∧ items ≡ₚ map_to_list cache
    ∧ Sorted key_le items
    ∧ length items = size cache
    ∧ Forall (λ item,
                length (writerow (key_name :: fieldnames) item.2)
                = S (length fieldnames)) items
    ∧ (∀ f, f ≠ filename →
            save_cache_to_csv cache filename fieldnames key_name fs !! f
            = fs !! f).
Proof.
  unfold save_cache_to_csv. exists (sorted_items cache).
  rewrite lookup_insert_eq.
  split_and!; [done| | | | |].
  - apply sorted_items_Permutation.
  - apply sorted_items_Sorted.
  - rewrite sorted_items_Permutation. apply length_map_to_list.
  - apply Forall_forall. intros item _.
    unfold writerow. cbn. by rewrite length_fmap.
  - intros f Hf. by rewrite lookup_insert_ne.
Qed.

Lemma reread_reread cols e : reread cols (reread cols e) = reread cols e.
Proof.
  apply map_eq. intros f. rewrite !reread_lookup.
  destruct (bool_decide (f ∈ cols)) eqn:Hf; [|done].
  unfold get at 1. rewrite reread_lookup, Hf.
  cbn [from_option Datatypes.id cell_of].
  by rewrite universal_newlines_idemp.
Qed.

Lemma foldl_insert_Forall {A B : Type} (P : string → B → Prop)
    (K : A → string) (D : A → B) (items : list A) (acc : gmap string B) :
  (∀ item, P (K item) (D item)) →
  map_Forall P acc →
  map_Forall P (foldl (λ acc item, <[K item := D item]> acc) acc items).
Proof.
  intros HP. revert acc.
  induction items as [|item items IH]; intros acc Hacc; [done|].
  cbn [foldl]. apply IH. by apply map_Forall_insert_2.
Qed.

(** X10.  A store that has been through the file once goes through it
    again unchanged, when no column name has a carriage return: the text
    cells of a loaded record are written and read back as they are. *)
Theorem save_load_fixpoint
    (cache : gmap string dict) filename fieldnames key_name (fs : files) :
  Forall cr_free (key_name :: fieldnames) →
  ∃ cache1,
    (load_cache_from_csv filename key_name
       (save_cache_to_csv cache filename fieldnames key_name fs)).1
    = Ok (as_loaded cache1)
    ∧ ∀ fs1 : files,
        load_cache_from_csv filename key_name
          (save_cache_to_csv cache1 filename fieldnames key_name fs1)
        = (Ok (as_loaded cache1),
           save_cache_to_csv cache1 filename fieldnames key_name fs1).
Proof.
  intros Hcols. rewrite load_saved_rows by done.
  eexists. split; [reflexivity|].
  match goal with
  | |- ∀ fs1, load_cache_from_csv _ _ (save_cache_to_csv ?c _ _ _ _) = _ =>
      assert (map_Forall
                (λ k e, (cell_of (get e key_name (VStr "")) = k ∧ cr_free k)
                        ∧ reread (key_name :: fieldnames) e = e) c) as Hinv
  end.
  { apply (foldl_insert_Forall
             (λ k e, (cell_of (get e key_name (VStr "")) = k ∧ cr_free k)
                     ∧ reread (key_name :: fieldnames) e = e));
      [|apply map_Forall_empty].
    intros [k e]. cbn [snd]. split_and!.
    - unfold get. rewrite reread_lookup, bool_decide_eq_true_2 by left.
      done.
    - apply universal_newlines_is_cr_free.
    - apply reread_reread. }
  intros fs1. rewrite load_saved_cache.
  - do 3 f_equal. apply map_eq. intros k. rewrite lookup_fmap.
    destruct (_ !! k) as [e|] eqn:Hk; [|done].
    cbn. f_equal. exact (proj2 (Hinv k e Hk)).
  - done.
  - intros k e Hk. exact (proj1 (Hinv k e Hk)).
Qed.

Lemma save_load_fixpoint_witness :
  ∃ cache1,
    (load_cache_from_csv "cache.csv" "pic_id"
       (save_cache_to_csv two_line_cache "cache.csv"
          (field_names test_cfg) "pic_id" ∅)).1
    = Ok (as_loaded cache1)
    ∧ ∀ fs1 : files,
        load_cache_from_csv "cache.csv" "pic_id"
          (save_cache_to_csv cache1 "cache.csv" (field_names test_cfg)
             "pic_id" fs1)
        = (Ok (as_loaded cache1),
           save_cache_to_csv cache1 "cache.csv" (field_names test_cfg)
             "pic_id" fs1).
Proof.
  apply (save_load_fixpoint two_line_cache "cache.csv"
           (field_names test_cfg) "pic_id" ∅).
  apply (bool_decide_unpack _); exact I.
Defined.

(** The named columns of a record built from a row are the columns of the
    header, whatever the length of the row. *)
Lemma foldl_insert_is_Some {A : Type} (g : A → string * value)
    (l : list A) (acc : dict) f :
  is_Some (foldl (λ d x, <[(g x).1 := (g x).2]> d) acc l !! f)
  ↔ f ∈ (fst ∘ g) <$> l ∨ is_Some (acc !! f).
Proof.
  revert acc. induction l as [|x l IH]; intros acc.
  - rewrite elem_of_nil. cbn. tauto.
  - cbn [foldl fmap list_fmap]. rewrite IH, elem_of_cons.
    rewrite lookup_insert_is_Some'. unfold compose. cbn.
    intuition (subst; auto).
Qed.

Lemma fst_zip_take {A B : Type} (l : list A) (k : list B) :
  (zip l k).*1 = take (length k) l.
Proof.
  revert k. induction l as [|a l IH]; intros [|b k]; cbn; try done.
  by rewrite IH.
Qed.

Lemma zip_row_is_Some cols row f :
  is_Some (zip_row cols row !! f) ↔ f ∈ cols.
Proof.
  unfold zip_row.
  rewrite (foldl_insert_is_Some (λ k : string, (k, VNone))).
  rewrite (foldl_insert_is_Some (λ kv : string * string, (kv.1, VStr kv.2))).
  rewrite lookup_empty, is_Some_alt.
  replace ((fst ∘ (λ k : string, (k, VNone))) <$> drop (length row) cols)
    with (drop (length row) cols)
    by (by rewrite <- (list_fmap_id (drop _ _)) at 1).
  replace ((fst ∘ (λ kv : string * string, (kv.1, VStr kv.2)))
             <$> zip cols row)
    with (take (length row) cols)
    by (by rewrite <- fst_zip_take).
  rewrite <- (take_drop (length row) cols) at 3.
  rewrite elem_of_app. tauto.
Qed.

Lemma read_rows_invariant (P : value → csv_row → Prop) cols key_name data :
  (∀ row k, row ∈ data →
            row_dict (DictReader_row cols row) !! key_name = Some k →
            P k (DictReader_row cols row)) →
  ∀ acc cache,
    read_rows cols key_name data acc = Ok cache →
    map_Forall P acc → map_Forall P cache.
Proof.
  induction data as [|row data IH]; intros HP acc cache.
  - by intros [= <-].
  - cbn [read_rows].
    assert (∀ row' k, row' ∈ data →
              row_dict (DictReader_row cols row') !! key_name = Some k →
              P k (DictReader_row cols row')) as HP'
      by (intros row' k Hin; apply HP; by right).
    destruct (bool_decide (row = [])); [by apply IH|].
    cbv zeta. unfold getitem.
    destruct (row_dict (DictReader_row cols row) !! key_name) as [k|] eqn:Hk;
      [|done].
    cbn [mbind result_bind]. intros Hread Hacc.
    apply (IH HP' _ _ Hread).
    apply map_Forall_insert_2; [|done]. apply HP; [left|done].
Qed.

(** X11.  Every record of a loaded store is the record of a row of the
    file as the reader gets it.  The store has it under the value that the
    record has in the key column; its named fields are the columns of the
    header; and it has surplus cells exactly when its row is longer than
    the header. *)
Theorem load_cache_records_carry_key filename key_name (fs : files) cache :
  (load_cache_from_csv filename key_name fs).1 = Ok cache →
  ∀ k r, cache !! k = Some r →
    ∃ header data row,
      fs !! filename = Some (header :: data)
      ∧ row ∈ data
      ∧ r = DictReader_row (universal_newlines <$> header)
              (universal_newlines <$> row)
      ∧ row_dict r !! key_name = Some k
      ∧ (∀ f, is_Some (row_dict r !! f)
              ↔ f ∈ universal_newlines <$> header)
      ∧ (row_rest r = None ↔ (length row ≤ length header)%nat).
Proof.
  unfold load_cache_from_csv.
  destruct (fs !! filename) as [[|header data]|]; cbn [fst];
    try (by intros [= <-] k r Hk; rewrite lookup_empty in Hk).
  unfold read_text. rewrite fmap_cons. cbn [fst].
  intros Hread k r Hk.
  pose proof (read_rows_invariant
    (λ k r, ∃ row, row ∈ data
       ∧ r = DictReader_row (universal_newlines <$> header)
               (universal_newlines <$> row)
       ∧ row_dict r !! key_name = Some k)
    (universal_newlines <$> header) key_name
    ((λ row : list string, universal_newlines <$> row) <$> data)) as Hinv.
  destruct (Hinv) with (acc := (∅ : gmap value csv_row)) (cache := cache)
                       (i := k) (x := r)
    as (row & Hrow & -> & Hkey); [|done|apply map_Forall_empty|done|].
  { intros row' k' Hin Hk'.
    apply list_elem_of_fmap in Hin as (row & -> & Hin). eauto. }
  exists header, data, row. split_and!; [done..| |].
  - intros f. apply zip_row_is_Some.
  - cbn [row_rest DictReader_row]. rewrite !length_fmap.
    destruct (decide (length header < length row)%nat); split;
      (done || lia).
Qed.

Lemma load_cache_records_carry_key_witness :
  (load_cache_from_csv "cache.csv" "pic_id" ragged_files).1
  = Ok ragged_cache
  ∧ ∀ k r, ragged_cache !! k = Some r →
      ∃ header data row,
        ragged_files !! "cache.csv" = Some (header :: data)
        ∧ row ∈ data
        ∧ r = DictReader_row (universal_newlines <$> header)
                (universal_newlines <$> row)
        ∧ row_dict r !! "pic_id" = Some k
        ∧ (∀ f, is_Some (row_dict r !! f)
                ↔ f ∈ universal_newlines <$> header)
        ∧ (row_rest r = None ↔ (length row ≤ length header)%nat).
Proof.
  split; [reflexivity|].
  apply (load_cache_records_carry_key "cache.csv" "pic_id" ragged_files).
  reflexivity.
Defined.

(** ** The decision and the file *)

(** The decision reads its entry three times and no more. *)
Lemma get_cache_update_for_item_ext ets rnd (e1 e2 : dict) cur cfg :
  make_int (get e1 "last_updated" (VInt 0))
  = make_int (get e2 "last_updated" (VInt 0)) →
  e1 !! key_field cfg = e2 !! key_field cfg →
  make_int (get e1 "next_update" (VInt (cur + 1)))
  = make_int (get e2 "next_update" (VInt (cur + 1))) →
  get_cache_update_for_item ets rnd e1 cur cfg
  = get_cache_update_for_item ets rnd e2 cur cfg.
Proof.
  intros H1 H2 H3. unfold get_cache_update_for_item, getitem.
  by rewrite H1, H2, H3.
Qed.

Lemma solid_cr_free s :
  Forall (λ c, is_space c = false) (list_ascii_of_string s) → cr_free s.
Proof.
  intros H Hin. rewrite Forall_forall in H. by specialize (H CR Hin).
Qed.

(** The decimal text of an integer is read from the file as it is. *)
Lemma universal_newlines_str_of_int n :
  universal_newlines (str_of_int n) = str_of_int n.
Proof. apply universal_newlines_cr_free, solid_cr_free, str_of_int_solid. Qed.

(** X12.  A record with its key and integer time stamps gets the same
    decision before the store is saved and after it is loaded, when no
    key and no column name has a carriage return: [make_int] reads the
    text of a stamp as the stamp, and an empty [last_updated] cell as
    0. *)
Theorem decision_survives_file
    ets rnd (cache : gmap string dict) file fieldnames (fs : files)
    cur cfg k (e : dict) (olu : option Z) nu :
  Forall cr_free (key_field cfg :: fieldnames) →
  "last_updated" ∈ fieldnames →
  "next_update" ∈ fieldnames →
  map_Forall
    (λ k e, cell_of (get e (key_field cfg) (VStr "")) = k ∧ cr_free k)
    cache →
  cache !! k = Some e →
  e !! key_field cfg = Some (VStr k) →
  e !! "last_updated" = VInt <$> olu →
  e !! "next_update" = Some (VInt nu) →
  ∃ cache' r,
    load_cache_from_csv file (key_field cfg)
      (save_cache_to_csv cache file fieldnames (key_field cfg) fs)
    = (Ok cache', save_cache_to_csv cache file fieldnames (key_field cfg) fs)
    ∧ cache' !! VStr k = Some r
    ∧ row_rest r = None
    ∧ get_cache_update_for_item ets rnd (row_dict r) cur cfg
      = get_cache_update_for_item ets rnd e cur cfg.
Proof.
  intros Hcols Hl Hn Hkeys Hk Hek Hel Hen.
  destruct (Hkeys k e Hk) as [_ Hcr].
  eexists _, _. split; [by apply load_saved_cache|].
  split; [by rewrite as_loaded_lookup, lookup_fmap, Hk|].
  split; [done|]. cbn [row_dict plain_row].
  apply get_cache_update_for_item_ext.
  - unfold get. rewrite reread_lookup, bool_decide_eq_true_2 by by right.
    unfold get. rewrite Hel. destruct olu as [lu|]; cbn.
    + rewrite universal_newlines_str_of_int. apply make_int_cell_of_int.
    + done.
  - rewrite reread_lookup, bool_decide_eq_true_2 by left.
    unfold get. rewrite Hek. cbn [from_option Datatypes.id cell_of].
    by rewrite universal_newlines_cr_free.
  - unfold get. rewrite reread_lookup, bool_decide_eq_true_2 by by right.
    unfold get. rewrite Hen. cbn.
    rewrite universal_newlines_str_of_int. apply make_int_cell_of_int.
Qed.

Lemma decision_survives_file_witness :
  ∃ cache' r,
    load_cache_from_csv "cache.csv" (key_field test_cfg)
      (save_cache_to_csv refreshed_cache "cache.csv" (field_names test_cfg)
         (key_field test_cfg) ∅)
    = (Ok cache',
       save_cache_to_csv refreshed_cache "cache.csv" (field_names test_cfg)
         (key_field test_cfg) ∅)
    ∧ cache' !! VStr "16736042621" = Some r
    ∧ row_rest r = None
    ∧ get_cache_update_for_item epoch_to_str_utc 0 (row_dict r) 1141 test_cfg
      = get_cache_update_for_item epoch_to_str_utc 0 refreshed_entry 1141
          test_cfg.
Proof.
  apply (decision_survives_file epoch_to_str_utc 0 refreshed_cache
           "cache.csv" (field_names test_cfg) ∅ 1141 test_cfg
           "16736042621" refreshed_entry (Some 1000) 1040).
  - apply (bool_decide_unpack _); exact I.
  - apply (bool_decide_unpack _); exact I.
  - apply (bool_decide_unpack _); exact I.
  - apply (bool_decide_unpack _); exact I.
  - reflexivity.
  - reflexivity.
  - reflexivity.
  - reflexivity.
Defined.

(** ** The per-tag cache update *)

Ltac not_in_list :=
  rewrite !not_elem_of_cons; split_and!; first [done | apply not_elem_of_nil].

Section StepFacts.

Variable epoch_to_str : Z → string.

(** The decision for a record that was never updated, outside the
    session window. *)
Lemma never_updated_decision rnd entry cur cfg id nu :
  make_int (get entry "last_updated" (VInt 0)) = Ok 0 →
  session_interval cfg <= cur →
  entry !! key_field cfg = Some id →
  make_int (get entry "next_update" (VInt (cur + 1))) = Ok nu →
  recent_interval cfg + increment cfg <= refresh_interval cfg →
  ∃ n,
    get_cache_update_for_item epoch_to_str rnd entry cur cfg
    = Ok (needs_update_result epoch_to_str (key_field cfg) id n)
    ∧ cur + recent_interval cfg + increment cfg <= n <= cur
      + refresh_interval cfg.
Proof.
  intros Hlu Hs Hid Hnu Hrange.
  rewrite (get_cache_update_for_item_past_session _ rnd entry cur cfg 0 nu id)
    by (done || lia).
  assert (recently_updated 0 cur cfg = true) as ->
    by (unfold recently_updated; apply orb_true_r).
  destruct (get_next_update_time_returns rnd cur cfg Hrange)
    as (n & -> & Hlo & Hhi).
  exists n. cbn. split; [done|lia].
Qed.

Lemma refresh_item_update_eq rnd item_update updated_item cur cfg e :
  refresh_item_update epoch_to_str rnd item_update updated_item cur cfg
  = Ok e →
  ∃ n,
    get_next_update_time rnd cur cfg = Ok n
    ∧ e = update (update item_update updated_item)
            (<["next_update_str" := VStr (epoch_to_str n)]>
             (<["next_update" := VInt n]>
              (<["last_updated_str" := VStr (epoch_to_str cur)]>
               {[ "last_updated" := VInt cur ]}))).
Proof.
  unfold refresh_item_update.
  destruct (get_next_update_time rnd cur cfg) as [n|]; [|done].
  intros [= <-]. eauto.
Qed.

Lemma refresh_item_update_last_updated
    rnd item_update updated_item cur cfg e :
  refresh_item_update epoch_to_str rnd item_update updated_item cur cfg
  = Ok e →
  e !! "last_updated" = Some (VInt cur).
Proof.
  intros (n & _ & ->)%refresh_item_update_eq.
  rewrite update_lookup. rewrite !lookup_insert_ne by done.
  by rewrite lookup_singleton_eq.
Qed.

Lemma refresh_item_update_other
    rnd item_update updated_item cur cfg e k :
  refresh_item_update epoch_to_str rnd item_update updated_item cur cfg
  = Ok e →
  k ∉ ["last_updated"; "last_updated_str"; "next_update";
       "next_update_str"] →
  e !! k = match updated_item !! k with
           | Some v => Some v
           | None => item_update !! k
           end.
Proof.
  intros (n & _ & ->)%refresh_item_update_eq Hk.
  rewrite !not_elem_of_cons in Hk. destruct Hk as (?&?&?&?&_).
  rewrite !update_lookup. rewrite !lookup_insert_ne by done.
  by rewrite lookup_singleton_ne.
Qed.

(** The step when the store holds a record for the photo: no record is
    created, and the decision is taken on that record. *)
Lemma replace_tag_cache_step_present
    rnd1 rnd2 flickr cur cfg (cache : gmap string dict) photo pic_id entry :
  cache !! pic_id = Some entry →
  entry ≠ ∅ →
  replace_tag_cache_step epoch_to_str rnd1 rnd2 flickr cur cfg cache photo
    pic_id
  = item_update ← get_cache_update_for_item epoch_to_str rnd1 entry cur cfg;
    status ← getitem item_update "status";
    '(cache, photo, item_update) ←
      (if bool_decide (status = VStr "needs_update")
       then
         let updated_item := get_info_from_flickr flickr pic_id in
         if negb (bool_decide (updated_item = ∅))
         then
           item_update ←
             refresh_item_update epoch_to_str rnd2 item_update updated_item
               cur cfg;
           mret (<[pic_id := item_update]> cache,
                 update photo item_update, item_update)
         else mret (cache, photo, item_update)
       else mret (cache, photo, item_update));
    status ← getitem item_update "status";
    let photo :=
      if bool_decide (status = VStr "ok") then update photo entry
      else photo in
    mret (cache, photo).
Proof.
  intros Hc He. unfold replace_tag_cache_step. cbv zeta.
  rewrite Hc. rewrite (bool_decide_eq_false_2 (entry = ∅)) by done.
  by rewrite Hc.
Qed.

(** The step when the store holds no record for the photo, or an empty
    one: it goes on as from the store with the stub record. *)
Lemma replace_tag_cache_step_absent
    rnd1 rnd2 flickr cur cfg (cache : gmap string dict) photo pic_id :
  cache !! pic_id = None ∨ cache !! pic_id = Some ∅ →
  replace_tag_cache_step epoch_to_str rnd1 rnd2 flickr cur cfg cache photo
    pic_id
  = replace_tag_cache_step epoch_to_str rnd1 rnd2 flickr cur cfg
      (<[pic_id := {[ key_field cfg := VStr pic_id ]}]> cache) photo pic_id.
Proof.
  intros Hc. unfold replace_tag_cache_step. cbv zeta.
  rewrite !lookup_insert_eq.
  rewrite (bool_decide_eq_false_2 ({[ key_field cfg := VStr pic_id ]} = ∅))
    by apply map_non_empty_singleton.
  by destruct Hc as [-> | ->].
Qed.

Lemma replace_tag_cache_step_in_session
    rnd1 rnd2 flickr cur cfg (cache : gmap string dict) photo pic_id
    entry lu :
  cache !! pic_id = Some entry →
  entry ≠ ∅ →
  make_int (get entry "last_updated" (VInt 0)) = Ok lu →
  cur - lu < session_interval cfg →
  replace_tag_cache_step epoch_to_str rnd1 rnd2 flickr cur cfg cache photo
    pic_id
  = Ok (cache, update photo entry).
Proof.
  intros Hc He Hlu Hs.
  rewrite (replace_tag_cache_step_present _ _ _ _ _ _ _ _ entry) by done.
  rewrite (get_cache_update_for_item_in_session _ _ _ _ _ lu) by done.
  reflexivity.
Qed.

(** X13.  A cache hit: within the session interval of its last update the
    record is used as it is. The store is unchanged, the service is not
    asked and nothing is drawn: the result is the same for every service
    and every entropy. *)
Theorem replace_tag_cache_step_hit
    rnd1 rnd2 flickr cur cfg (cache : gmap string dict) photo pic_id
    entry lu :
  cache !! pic_id = Some entry →
  entry ≠ ∅ →
  make_int (get entry "last_updated" (VInt 0)) = Ok lu →
  cur - lu < session_interval cfg →
  replace_tag_cache_step epoch_to_str rnd1 rnd2 flickr cur cfg cache photo
    pic_id
  = Ok (cache, update photo entry).
Proof. apply replace_tag_cache_step_in_session. Qed.

(** X14.  A record stamped by a refresh is served from the store for as
    long as the session interval lasts: a later tag for the same photo in
    the same run causes no second fetch. *)
Theorem refreshed_record_is_a_hit
    rnd item_update updated_item cur cfg e
    rnd1 rnd2 flickr cur' (cache : gmap string dict) photo pic_id :
  refresh_item_update epoch_to_str rnd item_update updated_item cur cfg
  = Ok e →
  cur' - cur < session_interval cfg →
  replace_tag_cache_step epoch_to_str rnd1 rnd2 flickr cur' cfg
    (<[pic_id := e]> cache) photo pic_id
  = Ok (<[pic_id := e]> cache, update photo e).
Proof.
  intros He Hs.
  pose proof (refresh_item_update_last_updated _ _ _ _ _ _ He) as Hlu.
  apply (replace_tag_cache_step_in_session _ _ _ _ _ _ _ _ e cur).
  - by rewrite lookup_insert_eq.
  - intros ->. by rewrite lookup_empty in Hlu.
  - unfold get. by rewrite Hlu.
  - done.
Qed.

Lemma replace_tag_cache_step_failure_status
    rnd1 rnd2 flickr cur cfg (cache : gmap string dict) photo pic_id
    entry d stat response :
  cache !! pic_id = Some entry →
  entry ≠ ∅ →
  get_cache_update_for_item epoch_to_str rnd1 entry cur cfg = Ok d →
  d !! "status" = Some (VStr "needs_update") →
  flickr pic_id = Response stat response →
  stat ≠ "ok" →
  replace_tag_cache_step epoch_to_str rnd1 rnd2 flickr cur cfg cache photo
    pic_id
  = Ok (cache, photo).
Proof.
  intros Hc He Hd Hst Hf Hstat.
  rewrite (replace_tag_cache_step_present _ _ _ _ _ _ _ _ entry) by done.
  rewrite Hd. cbn [mbind result_bind]. unfold getitem. rewrite Hst.
  rewrite (get_info_from_flickr_not_ok _ _ stat response) by done.
  cbn [mbind result_bind].
  rewrite (bool_decide_eq_true_2 (VStr "needs_update" = _)) by done.
  rewrite (bool_decide_eq_true_2 (∅ = ∅)) by done.
  cbn [negb mbind result_bind mret result_ret]. rewrite Hst.
  reflexivity.
Qed.

(** X15.  A fetch answered with a failure status changes nothing: the
    record and the parameters of the tag stay as they are. *)
Theorem replace_tag_cache_step_not_ok
    rnd1 rnd2 flickr cur cfg (cache : gmap string dict) photo pic_id
    entry d stat response :
  cache !! pic_id = Some entry →
  entry ≠ ∅ →
  get_cache_update_for_item epoch_to_str rnd1 entry cur cfg = Ok d →
  d !! "status" = Some (VStr "needs_update") →
  flickr pic_id = Response stat response →
  stat ≠ "ok" →
  replace_tag_cache_step epoch_to_str rnd1 rnd2 flickr cur cfg cache photo
    pic_id
  = Ok (cache, photo).
Proof. apply replace_tag_cache_step_failure_status. Qed.

(** X16.  A photo seen for the first time whose fetch is answered with a
    failure status leaves a stub in the store: the record with the key
    field and nothing else. *)
Theorem replace_tag_cache_step_stub
    rnd1 rnd2 flickr cur cfg (cache : gmap string dict) photo pic_id
    stat response :
  cache !! pic_id = None →
  key_field cfg ∉ ["status"; "last_updated"; "next_update"] →
  session_interval cfg <= cur →
  recent_interval cfg + increment cfg <= refresh_interval cfg →
  flickr pic_id = Response stat response →
  stat ≠ "ok" →
  replace_tag_cache_step epoch_to_str rnd1 rnd2 flickr cur cfg cache photo
    pic_id
  = Ok (<[pic_id := {[ key_field cfg := VStr pic_id ]}]> cache, photo).
Proof.
  intros Hc Hk Hs Hrange Hf Hstat.
  rewrite !not_elem_of_cons in Hk. destruct Hk as (Hk1 & Hk2 & Hk3 & _).
  rewrite replace_tag_cache_step_absent by by left.
  destruct (never_updated_decision rnd1
              {[ key_field cfg := VStr pic_id ]} cur cfg (VStr pic_id)
              (cur + 1)) as (n & Hd & Hn).
  - unfold get. by rewrite lookup_singleton_ne.
  - done.
  - by rewrite lookup_singleton_eq.
  - unfold get. by rewrite lookup_singleton_ne.
  - done.
  - eapply replace_tag_cache_step_failure_status; try done.
    + by rewrite lookup_insert_eq.
    + apply map_non_empty_singleton.
    + by apply needs_update_result_status.
Qed.

(** X17.  A fetch that succeeds, under a policy that leaves the draw of
    the refresh a range, [recent_interval + increment <=
    refresh_interval]: the record of the photo is replaced by the
    refreshed one, which holds the title and the URL base of the answer,
    the time of the fetch, and the status of the decision; the tag gets
    the same fields. *)
Theorem replace_tag_cache_step_refresh
    rnd1 rnd2 flickr cur cfg (cache : gmap string dict) photo pic_id
    entry d response :
  cache !! pic_id = Some entry →
  entry ≠ ∅ →
  get_cache_update_for_item epoch_to_str rnd1 entry cur cfg = Ok d →
  d !! "status" = Some (VStr "needs_update") →
  flickr pic_id = Response "ok" response →
  recent_interval cfg + increment cfg <= refresh_interval cfg →
  ∃ e,
    replace_tag_cache_step epoch_to_str rnd1 rnd2 flickr cur cfg cache photo
      pic_id
    = Ok (<[pic_id := e]> cache, update photo e)
    ∧ e !! "title" = Some (VStr (default "" (title_content response)))
    ∧ e !! "insert_image_url_base"
      = Some (VStr (insert_image_url_base_of response))
    ∧ e !! "last_updated" = Some (VInt cur)
    ∧ e !! "status" = Some (VStr "needs_update")
    ∧ ∀ k, d !! k = None →
           k ∉ ["title"; "insert_image_url_base"; "last_updated";
                "last_updated_str"; "next_update"; "next_update_str"] →
           e !! k = None.
Proof.
  intros Hc He Hd Hst Hf Hrange.
  rewrite (replace_tag_cache_step_present _ _ _ _ _ _ _ _ entry) by done.
  rewrite Hd. cbn [mbind result_bind]. unfold getitem. rewrite Hst.
  cbn [mbind result_bind].
  assert (get_info_from_flickr flickr pic_id
          = <["title" := VStr (default "" (title_content response))]>
              (<["insert_image_url_base" :=
                   VStr (insert_image_url_base_of response)]> ∅)) as Hu.
  { unfold get_info_from_flickr. by rewrite Hf. }
  rewrite Hu.
  destruct (refresh_item_update_returns epoch_to_str rnd2 d
              (<["title" := VStr (default "" (title_content response))]>
                 (<["insert_image_url_base" :=
                      VStr (insert_image_url_base_of response)]> ∅))
              cur cfg Hrange) as [e He'].
  exists e.
  assert (e !! "status" = Some (VStr "needs_update")) as Hes.
  { rewrite (refresh_item_update_other _ _ _ _ _ _ _ He')
      by not_in_list.
    rewrite !lookup_insert_ne, lookup_empty by done. done. }
  split_and!.
  - rewrite (bool_decide_eq_true_2 (VStr "needs_update" = _)) by done.
    cbv zeta. rewrite bool_decide_eq_false_2 by apply insert_non_empty.
    cbn [negb]. rewrite He'. cbn [mbind result_bind mret result_ret].
    rewrite Hes. reflexivity.
  - rewrite (refresh_item_update_other _ _ _ _ _ _ _ He')
      by not_in_list.
    by rewrite lookup_insert_eq.
  - rewrite (refresh_item_update_other _ _ _ _ _ _ _ He')
      by not_in_list.
    rewrite lookup_insert_ne by done. by rewrite lookup_insert_eq.
  - by eapply refresh_item_update_last_updated.
  - done.
  - intros k Hdk Hk. rewrite !not_elem_of_cons in Hk.
    destruct Hk as (?&?&?&?&?&?&_).
    rewrite (refresh_item_update_other _ _ _ _ _ _ _ He')
      by not_in_list.
    rewrite !lookup_insert_ne, lookup_empty by done. done.
Qed.

Lemma replace_tag_cache_step_insert
    rnd1 rnd2 flickr cur cfg (cache : gmap string dict) photo pic_id
    cache' photo' :
  replace_tag_cache_step epoch_to_str rnd1 rnd2 flickr cur cfg cache photo
    pic_id
  = Ok (cache', photo') →
  ∃ e, cache' = <[pic_id := e]> cache ∧ e ≠ ∅.
Proof.
  assert (∀ (c : gmap string dict) entry,
            c !! pic_id = Some entry → entry ≠ ∅ →
            replace_tag_cache_step epoch_to_str rnd1 rnd2 flickr cur cfg c
              photo pic_id
            = Ok (cache', photo') →
            ∃ e, cache' = <[pic_id := e]> c ∧ e ≠ ∅) as Hpresent.
  { intros c entry Hc He.
    rewrite (replace_tag_cache_step_present _ _ _ _ _ _ _ _ entry) by done.
    destruct (get_cache_update_for_item _ _ _ _ _) as [d|]; [|done].
    cbn [mbind result_bind].
    destruct (getitem d "status") as [status|]; [|done].
    cbn [mbind result_bind].
    destruct (bool_decide (status = VStr "needs_update")).
    - cbv zeta.
      destruct (bool_decide (get_info_from_flickr flickr pic_id = ∅)).
      + cbn [negb mbind result_bind mret result_ret].
        destruct (getitem d "status"); [|done].
        cbn [mbind result_bind mret result_ret].
        intros [= <- _]. exists entry. by rewrite insert_id.
      + cbn [negb].
        destruct (refresh_item_update _ _ _ _ _ _) as [e|] eqn:He';
          [|done].
        cbn [mbind result_bind mret result_ret].
        destruct (getitem e "status"); [|done].
        cbn [mbind result_bind mret result_ret].
        intros [= <- _]. exists e. split; [done|].
        intros ->.
        apply refresh_item_update_last_updated in He'.
        by rewrite lookup_empty in He'.
    - cbn [mbind result_bind mret result_ret].
      destruct (getitem d "status"); [|done].
      cbn [mbind result_bind mret result_ret].
      intros [= <- _]. exists entry. by rewrite insert_id. }
  destruct (cache !! pic_id) as [entry|] eqn:Hc.
  - destruct (decide (entry = ∅)) as [->|He].
    + rewrite replace_tag_cache_step_absent by by right.
      intros H.
      destruct (Hpresent _ {[ key_field cfg := VStr pic_id ]}
                  ltac:(by rewrite lookup_insert_eq)
                  ltac:(apply map_non_empty_singleton) H) as (e & -> & He).
      exists e. by rewrite insert_insert_eq.
    + exact (Hpresent cache entry Hc He).
  - rewrite replace_tag_cache_step_absent by by left.
    intros H.
    destruct (Hpresent _ {[ key_field cfg := VStr pic_id ]}
                ltac:(by rewrite lookup_insert_eq)
                ltac:(apply map_non_empty_singleton) H) as (e & -> & He).
    exists e. by rewrite insert_insert_eq.
Qed.

(** X18.  The step touches the record of its photo and no other, and
    leaves that record non-empty: the record of every other photo is
    found after the step as it was before. *)
Theorem replace_tag_cache_step_frame
    rnd1 rnd2 flickr cur cfg (cache : gmap string dict) photo pic_id
    cache' photo' :
  replace_tag_cache_step epoch_to_str rnd1 rnd2 flickr cur cfg cache photo
    pic_id
  = Ok (cache', photo') →
  ∃ e, cache' = <[pic_id := e]> cache
       ∧ e ≠ ∅
       ∧ ∀ k, k ≠ pic_id → cache' !! k = cache !! k.
Proof.
  intros H.
  destruct (replace_tag_cache_step_insert _ _ _ _ _ _ _ _ _ _ H)
    as (e & -> & He).
  exists e. split_and!; [done..|].
  intros k Hk. by rewrite lookup_insert_ne.
Qed.

End StepFacts.

(** ** Replacing [http://] *)

Lemma string_prefix_cons a s1 b s2 :
  String.prefix (String a s1) (String b s2) = true
  ↔ a = b ∧ String.prefix s1 s2 = true.
Proof.
  cbn [String.prefix]. destruct (ascii_dec a b); [tauto|].
  split; [done|tauto].
Qed.

Lemma string_prefix_append s1 s2 :
  String.prefix s1 s2 = true → ∃ rest, s2 = s1 ++ rest.
Proof.
  revert s2. induction s1 as [|a s1 IH]; intros s2; [by exists s2|].
  destruct s2 as [|b s2]; [done|].
  intros [-> (rest & ->)%IH]%string_prefix_cons. by exists rest.
Qed.

Lemma string_prefix_empty s : String.prefix "" s = true.
Proof. by destruct s. Qed.

Lemma string_prefix_append_self p rest : String.prefix p (p ++ rest) = true.
Proof.
  induction p as [|a p IH]; [apply string_prefix_empty|].
  change (String a p ++ rest) with (String a (p ++ rest)).
  by apply string_prefix_cons.
Qed.

Lemma str_replace_hit rest :
  str_replace ("http://" ++ rest) "http://" "https://"
  = "https://" ++ str_replace rest "http://" "https://".
Proof.
  unfold str_replace.
  pose proof (string_prefix_append_self "http://" rest) as H.
  change ("http://" ++ rest) with (String "h" ("ttp://" ++ rest)) in *.
  cbn [str_replace_from]. rewrite H. reflexivity.
Qed.

Lemma str_replace_miss old new c s :
  String.prefix old (String c s) = false →
  str_replace (String c s) old new = String c (str_replace s old new).
Proof. intros H. unfold str_replace. cbn [str_replace_from]. by rewrite H. Qed.

(** Where nothing is replaced up to a character that is not [h], the
    text before that character was there before. *)
Lemma str_replace_prefix_back p s :
  Forall (λ a, a ≠ "h"%char) (list_ascii_of_string p) →
  String.prefix p (str_replace s "http://" "https://") = true →
  String.prefix p s = true.
Proof.
  revert s. induction p as [|a p IH]; intros s Hp;
    [intros _; apply string_prefix_empty|].
  apply Forall_cons in Hp as [Ha Hp].
  destruct s as [|c s]; [done|].
  destruct (String.prefix "http://" (String c s)) eqn:Hpre.
  - apply string_prefix_append in Hpre as [rest ->].
    rewrite str_replace_hit. by intros [? _]%string_prefix_cons.
  - rewrite str_replace_miss by done.
    intros [-> H]%string_prefix_cons. apply string_prefix_cons. split; [done|].
    by apply IH.
Qed.

Lemma str_contains_https rest :
  str_contains ("https://" ++ rest) "http://"
  = str_contains rest "http://".
Proof. reflexivity. Qed.

Lemma str_replace_no_http_bounded n s :
  (String.length s <= n)%nat →
  str_contains (str_replace s "http://" "https://") "http://" = false.
Proof.
  revert s. induction n as [|n IH]; intros s Hn.
  { destruct s; [done|]. cbn in Hn. lia. }
  destruct s as [|c s]; [done|].
  destruct (String.prefix "http://" (String c s)) eqn:Hpre.
  - apply string_prefix_append in Hpre as [rest Hrest]. rewrite Hrest in *.
    rewrite str_replace_hit, str_contains_https. apply IH.
    change (String.length ("http://" ++ rest))
      with (7 + String.length rest)%nat in Hn.
    lia.
  - rewrite str_replace_miss by done. cbn [str_contains].
    rewrite IH by (cbn in Hn; lia). rewrite orb_false_r.
    destruct (String.prefix "http://"
                (String c (str_replace s "http://" "https://"))) eqn:H;
      [|done].
    apply string_prefix_cons in H as [<- H].
    apply str_replace_prefix_back in H; [|by repeat constructor].
    assert (String.prefix "http://" (String "h" s) = true) as Hs
      by by apply string_prefix_cons.
    by rewrite Hs in Hpre.
Qed.

(** After the replacement no [http://] is left. *)
Lemma str_replace_no_http s :
  str_contains (str_replace s "http://" "https://") "http://" = false.
Proof. by apply (str_replace_no_http_bounded (String.length s)). Qed.

(** A text without the pattern is left as it is. *)
Lemma str_replace_absent s old new :
  str_contains s old = false → str_replace s old new = s.
Proof.
  induction s as [|c s IH]; [done|].
  cbn [str_contains]. intros [Hpre Hs]%orb_false_elim.
  rewrite str_replace_miss by done. by rewrite IH.
Qed.

(** ** The identifier and the URL of a photo *)

Lemma getitem_Some (d : dict) k v : d !! k = Some v → getitem d k = Ok v.
Proof. intros H. unfold getitem. by rewrite H. Qed.

Section PhotoTagFacts.

Variable shorturl_encode : value → result string.
Variable shorturl_decode : string → result value.

Lemma get_photo_id_and_url_url photo_dict id_field output :
  get_photo_id_and_url shorturl_encode shorturl_decode photo_dict id_field
  = Ok output →
  ∃ u, output !! "url" = Some (VStr u)
       ∧ str_contains u "http://" = false.
Proof.
  unfold get_photo_id_and_url. cbv zeta.
  match goal with
  | |- (?m ≫= _) = _ → _ =>
      destruct m as [url|]; cbn [mbind result_bind]; [|done]
  end.
  match goal with
  | |- (?m ≫= _) = _ → _ =>
      destruct m as [out|]; cbn [mbind result_bind]; [|done]
  end.
  destruct (getitem out "url") as [[n|u|b|]|];
    cbn [mbind result_bind mret result_ret]; try done.
  intros [= <-].
  exists (str_replace u "http://" "https://").
  rewrite lookup_insert_eq. split; [done|]. apply str_replace_no_http.
Qed.

(** X19.  The URL handed back is a text in which no [http://] is left. *)
Theorem get_photo_id_and_url_https photo_dict id_field output :
  get_photo_id_and_url shorturl_encode shorturl_decode photo_dict id_field
  = Ok output →
  ∃ u, output !! "url" = Some (VStr u)
       ∧ str_contains u "http://" = false.
Proof. apply get_photo_id_and_url_url. Qed.

(** X20.  Without a URL among the parameters, the URL is the short URL of
    the identifier. *)
Theorem get_photo_id_and_url_short photo_dict id_field short :
  truthy (get photo_dict "url" VNone) = false →
  shorturl_encode (get photo_dict id_field (get photo_dict "id" VNone))
  = Ok short →
  str_contains short "http://" = false →
  get_photo_id_and_url shorturl_encode shorturl_decode photo_dict id_field
  = Ok (<["url" := VStr ("https://flic.kr/p/" ++ short)]>
          {[ id_field :=
               get photo_dict id_field (get photo_dict "id" VNone) ]}).
Proof.
  intros Hurl Henc Hshort. unfold get_photo_id_and_url. cbv zeta.
  set (pic_id := get photo_dict id_field (get photo_dict "id" VNone)) in *.
  rewrite (getitem_Some
             (update {[ id_field := pic_id ]}
                {[ "url" := get photo_dict "url" VNone ]})
             "url" (get photo_dict "url" VNone))
    by (by rewrite update_lookup, lookup_singleton_eq).
  cbn [mbind result_bind]. rewrite Hurl. cbn [negb]. rewrite Henc.
  cbn [mbind result_bind mret result_ret].
  rewrite (getitem_Some _ "url" (VStr ("https://flic.kr/p/" ++ short)))
    by apply lookup_insert_eq.
  cbn [mbind result_bind mret result_ret].
  rewrite str_replace_absent by done.
  rewrite !insert_insert_eq. unfold update.
  rewrite <- insert_union_singleton_l. by rewrite insert_insert_eq.
Qed.

End PhotoTagFacts.

(** ** The metadata resolver *)

(** X21.  The resolver hands back nothing exactly when the service answers
    with a status other than ["ok"]. *)
Theorem get_info_from_flickr_empty flickr photo_id :
  get_info_from_flickr flickr photo_id = ∅
  ↔ ∃ stat response,
      flickr photo_id = Response stat response ∧ stat ≠ "ok".
Proof.
  split.
  - unfold get_info_from_flickr, update.
    destruct (flickr photo_id) as [msg|stat response].
    + intros H. apply (f_equal (lookup "flickr_error")) in H.
      rewrite lookup_empty in H.
      erewrite lookup_union_Some_l in H; [done|].
      by rewrite lookup_singleton_eq.
    + destruct (String.eqb_spec stat "ok") as [->|Hs]; cbn [negb].
      * intros H. by apply insert_non_empty in H.
      * eauto.
  - intros (stat & response & H & Hs).
    by apply (get_info_from_flickr_not_ok _ _ stat response).
Qed.

(** ** The decision engine, continued *)

Section DecisionFacts2.

Variable epoch_to_str : Z → string.

(** X22.  Outside the session window the key field is read: a record
    without it makes the call raise [KeyError], where inside the window
    the same record gets the verdict [ok]. *)
Theorem get_cache_update_for_item_missing_key rnd entry cur cfg lu :
  make_int (get entry "last_updated" (VInt 0)) = Ok lu →
  entry !! key_field cfg = None →
  get_cache_update_for_item epoch_to_str rnd entry cur cfg
  = if cur - lu <? session_interval cfg
    then Ok {[ "status" := VStr "ok" ]}
    else Raise (KeyError (VStr (key_field cfg))).
Proof.
  intros Hlu Hk. unfold get_cache_update_for_item. rewrite Hlu.
  cbn [mbind result_bind].
  destruct (cur - lu <? session_interval cfg); [done|].
  unfold getitem. by rewrite Hk.
Qed.

(** X23.  The outcomes of the decision: the verdict [ok] alone, or the
    verdict [needs_update] with a next update time that is at most the
    refresh interval away, and at least the smaller of the refresh
    interval and the recent interval plus the increment. *)
Theorem get_cache_update_for_item_outcomes rnd entry cur cfg d :
  get_cache_update_for_item epoch_to_str rnd entry cur cfg = Ok d →
  d = {[ "status" := VStr "ok" ]}
  ∨ ∃ id n,
      entry !! key_field cfg = Some id
      ∧ d = needs_update_result epoch_to_str (key_field cfg) id n
      ∧ cur + Z.min (recent_interval cfg + increment cfg)
                (refresh_interval cfg) <= n
      ∧ n <= cur + refresh_interval cfg.
Proof.
  intros Hd.
  destruct (make_int (get entry "last_updated" (VInt 0))) as [lu|] eqn:Hlu.
  2:{ unfold get_cache_update_for_item in Hd. by rewrite Hlu in Hd. }
  destruct (Z.lt_ge_cases (cur - lu) (session_interval cfg)) as [Hin|Hout].
  { rewrite (get_cache_update_for_item_in_session epoch_to_str rnd entry cur
               cfg lu) in Hd by done.
    left. congruence. }
  destruct (get_cache_update_for_item_returns epoch_to_str rnd entry cur cfg
              lu d) as (id & nu & Hid & Hnu); [done..|].
  rewrite (get_cache_update_for_item_past_session epoch_to_str rnd entry cur
             cfg lu nu id) in Hd by done.
  destruct (recently_updated lu cur cfg).
  - destruct (get_next_update_time rnd cur cfg) as [n|] eqn:Hn; [|done].
    apply get_next_update_time_range in Hn. cbn in Hd.
    right. exists id, n. split_and!; [done|congruence|lia|lia].
  - destruct (nu <=? cur).
    + right. exists id, (cur + refresh_interval cfg).
      split_and!; [done|congruence|lia|lia].
    + left. congruence.
Qed.

End DecisionFacts2.

(** ** The tags of a document *)

Section FlickrTagsFacts.

Variable findall : string → list (string * string).
Variable config_items : string → result (list (string * string)).

Lemma get_flickr_tags_loop_last matches params params' :
  get_flickr_tags_loop config_items matches params = Ok params' →
  match last matches with
  | None => params' = params
  | Some m =>
      ∃ items,
        config_items ("[temp]" ++ newline ++ str_replace m.2 "," newline)
        = Ok items
        ∧ params' = <["full_tag" := VStr m.1]> (dict_of_items items)
  end.
Proof.
  revert params. induction matches as [|m matches IH]; intros params.
  - by intros [= <-].
  - cbn [get_flickr_tags_loop].
    destruct (config_items _) as [items|] eqn:Hitems; [|done].
    cbn [mbind result_bind]. intros H. apply IH in H.
    destruct matches as [|m' matches].
    + cbn in *. subst. eauto.
    + change (last (m :: m' :: matches)) with (last (m' :: matches)).
      destruct (last (m' :: matches)) eqn:Hl; [done|].
      by apply last_None in Hl.
Qed.

(** X24.  [get_flickr_tags] hands back a list of exactly one dictionary:
    the parameters of the last tag in the text, the earlier tags being
    dropped, and the empty dictionary when the text holds no tag. *)
Theorem get_flickr_tags_single content tags :
  get_flickr_tags findall config_items content = Ok tags →
  ∃ params,
    tags = [params]
    ∧ match last (findall content) with
      | None => params = ∅
      | Some m =>
          ∃ items,
            config_items
              ("[temp]" ++ newline ++ str_replace m.2 "," newline)
            = Ok items
            ∧ params = <["full_tag" := VStr m.1]> (dict_of_items items)
      end.
Proof.
  unfold get_flickr_tags. cbv zeta.
  destruct (get_flickr_tags_loop _ _ _) as [params|] eqn:Hloop; [|done].
  cbn [mbind result_bind mret result_ret]. intros [= <-].
  exists params. split; [done|].
  by apply get_flickr_tags_loop_last in Hloop.
Qed.

End FlickrTagsFacts.

(** ** Stripping and splitting a URL *)

Lemma string_of_list_ascii_app l1 l2 :
  string_of_list_ascii (l1 ++ l2)%list
  = string_of_list_ascii l1 ++ string_of_list_ascii l2.
Proof. induction l1 as [|c l1 IH]; [done|]. cbn. by rewrite IH. Qed.

Lemma lstrip_chars_all cs ws l :
  Forall (λ c, c ∈ cs) ws →
  lstrip_chars cs (ws ++ l)%list = lstrip_chars cs l.
Proof.
  induction 1 as [|c ws Hc _ IH]; [done|].
  cbn [app lstrip_chars]. by rewrite bool_decide_eq_true_2.
Qed.

Lemma lstrip_chars_solid cs c l :
  c ∉ cs → lstrip_chars cs (c :: l) = c :: l.
Proof. intros Hc. cbn [lstrip_chars]. by rewrite bool_decide_eq_false_2. Qed.

(** Stripping on the left of a text whose first character past a prefix
    stays: what is left of the prefix is one of its ends. *)
Lemma lstrip_chars_suffix cs p c l :
  c ∉ cs →
  ∃ p', lstrip_chars cs (p ++ c :: l)%list = (p' ++ c :: l)%list
        ∧ p' `suffix_of` p.
Proof.
  intros Hc. induction p as [|b p IH].
  - exists []. split; [|done]. cbn [app]. by rewrite lstrip_chars_solid.
  - destruct (decide (b ∈ cs)) as [Hb|Hb].
    + destruct IH as (p' & Hp' & Hsuf). exists p'. split.
      * cbn [app lstrip_chars]. by rewrite bool_decide_eq_true_2.
      * by apply suffix_cons_r.
    + exists (b :: p). split; [|done].
      cbn [app]. by rewrite lstrip_chars_solid.
Qed.

Lemma split_char_nonempty s sep : split_char s sep ≠ [].
Proof.
  induction s as [|c s IH]; [done|]. cbn [split_char].
  destruct (Ascii.eqb c sep); [done|]. by destruct (split_char s sep).
Qed.

Lemma split_char_solid s sep :
  sep ∉ list_ascii_of_string s → split_char s sep = [s].
Proof.
  induction s as [|c s IH]; [done|]. cbn [list_ascii_of_string split_char].
  intros [Hc Hs]%not_elem_of_cons.
  destruct (Ascii.eqb_spec c sep) as [->|_]; [done|]. by rewrite IH.
Qed.

Lemma split_char_app s1 s2 sep :
  split_char (s1 ++ String sep s2) sep
  = (split_char s1 sep ++ split_char s2 sep)%list.
Proof.
  induction s1 as [|c s1 IH].
  - change ("" ++ String sep s2) with (String sep s2). cbn [split_char].
    by rewrite Ascii.eqb_refl.
  - change (String c s1 ++ String sep s2)
      with (String c (s1 ++ String sep s2)).
    cbn [split_char]. rewrite IH.
    destruct (Ascii.eqb c sep); [done|].
    pose proof (split_char_nonempty s1 sep).
    by destruct (split_char s1 sep).
Qed.

Lemma last_app_nonempty {A : Type} (l1 l2 : list A) d :
  l2 ≠ [] → List.last (l1 ++ l2)%list d = List.last l2 d.
Proof.
  intros Hl2. induction l1 as [|a l1 IH]; [done|].
  cbn [app List.last]. rewrite IH.
  destruct (l1 ++ l2)%list eqn:H; [|done].
  by apply app_eq_nil in H as [_ ?].
Qed.

(** The last piece of a URL once the slashes at its ends are gone: for
    [base/seg] followed by slashes it is [seg]. *)
Lemma last_piece_of_url base seg slashes :
  seg ≠ "" →
  "/"%char ∉ list_ascii_of_string seg →
  Forall (λ c, c = "/"%char) (list_ascii_of_string slashes) →
  List.last
    (split_char (strip_chars (base ++ "/" ++ seg ++ slashes) "/") "/"%char)
    ""
  = seg.
Proof.
  intros Hne Hseg Hsl. unfold strip_chars. cbv zeta.
  change (list_ascii_of_string "/") with ["/"%char].
  rewrite !list_ascii_of_string_app.
  change (list_ascii_of_string "/") with ["/"%char].
  destruct (list_ascii_of_string seg) as [|c l] eqn:Hl.
  { destruct seg; done. }
  assert (seg = string_of_list_ascii (c :: l)) as Hseq.
  { by rewrite <- Hl, string_of_list_ascii_of_string. }
  apply not_elem_of_cons in Hseg as [Hc Hl'].
  assert (c ∉ ["/"%char]) as Hc' by (by intros ->%list_elem_of_singleton).
  set (t := list_ascii_of_string slashes) in *.
  destruct (lstrip_chars_suffix ["/"%char]
              (list_ascii_of_string base ++ ["/"%char])%list c (l ++ t)%list
              Hc')
    as (p' & Hp' & Hsuf).
  rewrite <- !app_assoc in Hp'. cbn [app] in Hp'.
  cbn [app]. rewrite Hp'.
  assert (rev (p' ++ c :: l ++ t)%list
          = (rev t ++ rev (p' ++ c :: l))%list) as ->.
  { rewrite (app_comm_cons l t c), app_assoc. by rewrite rev_app_distr. }
  rewrite lstrip_chars_all.
  2:{ apply Forall_rev. eapply Forall_impl; [exact Hsl|].
      intros a ->. by apply list_elem_of_singleton. }
  assert (∃ a r, rev (p' ++ c :: l)%list = a :: r ∧ a ∉ ["/"%char])
    as (a & r & Hr & Ha).
  { rewrite rev_app_distr. cbn [rev].
    destruct (rev l) as [|a r] eqn:Hrev.
    - cbn. exists c, (rev p'). done.
    - exists a, ((r ++ [c]) ++ rev p')%list. split; [done|].
      intros ->%list_elem_of_singleton. apply Hl'.
      apply list_elem_of_In, in_rev, list_elem_of_In. rewrite Hrev. left. }
  rewrite Hr, lstrip_chars_solid by done. rewrite <- Hr, rev_involutive.
  destruct Hsuf as [k Hk].
  destruct p' as [|b p'] using rev_ind.
  - cbn [app]. rewrite <- Hseq.
    rewrite split_char_solid; [done|]. rewrite Hl.
    apply not_elem_of_cons. done.
  - clear IHp'. rewrite app_assoc in Hk. apply app_inj_tail in Hk as [_ <-].
    rewrite <- app_assoc. cbn [app].
    rewrite string_of_list_ascii_app.
    change (string_of_list_ascii ("/"%char :: c :: l))
      with (String "/" (string_of_list_ascii (c :: l))).
    rewrite <- Hseq, split_char_app.
    rewrite last_app_nonempty by apply split_char_nonempty.
    rewrite split_char_solid; [done|]. rewrite Hl.
    apply not_elem_of_cons. done.
Qed.

Section PhotoTagFacts2.

Variable shorturl_encode : value → result string.
Variable shorturl_decode : string → result value.

(** X25.  With a URL and no identifier among the parameters, the
    identifier is decoded from the last piece of the URL, the slashes at
    its end being ignored. *)
Theorem get_photo_id_and_url_from_url
    photo_dict id_field base seg slashes decoded :
  photo_dict !! "url" = Some (VStr (base ++ "/" ++ seg ++ slashes)) →
  truthy (get photo_dict id_field (get photo_dict "id" VNone)) = false →
  id_field ≠ "url" →
  seg ≠ "" →
  "/"%char ∉ list_ascii_of_string seg →
  Forall (λ c, c = "/"%char) (list_ascii_of_string slashes) →
  shorturl_decode seg = Ok decoded →
  get_photo_id_and_url shorturl_encode shorturl_decode photo_dict id_field
  = Ok (<["url" :=
            VStr (str_replace (base ++ "/" ++ seg ++ slashes)
                    "http://" "https://")]>
          {[ id_field := decoded ]}).
Proof.
  intros Hurl Hid Hne Hseg Hslash Hsl Hdec.
  unfold get_photo_id_and_url. cbv zeta.
  set (pic_id := get photo_dict id_field (get photo_dict "id" VNone)) in *.
  set (u := base ++ "/" ++ seg ++ slashes) in *.
  assert (get photo_dict "url" VNone = VStr u) as Hget
    by (unfold get; by rewrite Hurl).
  rewrite Hget.
  rewrite (getitem_Some (update {[ id_field := pic_id ]}
                           {[ "url" := VStr u ]}) "url" (VStr u))
    by (by rewrite update_lookup, lookup_singleton_eq).
  cbn [mbind result_bind].
  assert (truthy (VStr u) = true) as ->.
  { unfold u. by destruct base. }
  cbn [negb].
  rewrite (getitem_Some (update {[ id_field := pic_id ]}
                           {[ "url" := VStr u ]}) id_field pic_id).
  2:{ rewrite update_lookup, lookup_singleton_ne by done.
      by rewrite lookup_singleton_eq. }
  cbn [mbind result_bind]. rewrite Hid. cbn [negb].
  rewrite (getitem_Some photo_dict "url" (VStr u)) by done.
  cbn [mbind result_bind].
  pose proof (last_piece_of_url base seg slashes Hseg Hslash Hsl) as Hlast.
  fold u in Hlast. rewrite Hlast, Hdec.
  cbn [mbind result_bind mret result_ret].
  rewrite (getitem_Some _ "url" (VStr u)).
  2:{ rewrite lookup_insert_ne by done.
      by rewrite update_lookup, lookup_singleton_eq. }
  cbn [mbind result_bind mret result_ret]. f_equal.
  apply map_eq. intros k. unfold update.
  destruct (decide (k = "url")) as [->|Hk].
  { by rewrite !lookup_insert_eq. }
  rewrite !(lookup_insert_ne _ "url" k) by done.
  destruct (decide (k = id_field)) as [->|Hk'].
  - by rewrite lookup_insert_eq, lookup_singleton_eq.
  - rewrite lookup_insert_ne, lookup_singleton_ne by done.
    rewrite lookup_union_r by (by rewrite lookup_singleton_ne).
    by rewrite lookup_singleton_ne.
Qed.

End PhotoTagFacts2.

(** ** The image URL *)

(** X26.  The image URL is the cached base, the letter of the tidied size,
    and the extension. Where no base is known, because the fetch never
    succeeded, it is the letter and the extension alone. *)
Theorem ensure_photo_insert_image_url_sized photo dflt (obase : option string) :
  is_Some (photo_suffixes !! dflt) →
  photo !! "insert_image_url_base" = VStr <$> obase →
  ∃ letter,
    letter ∈ ["s"; "t"; "q"; "m"; "z"; "b"]
    ∧ ensure_photo_insert_image_url
        (update photo (ensure_photo_size photo dflt))
      = Ok {[ "insert_image_url" :=
                VStr ((default "" obase ++ letter) ++ ".jpg") ]}.
Proof.
  intros Hd Hbase.
  destruct (ensure_photo_size_cases photo dflt Hd)
    as (size & letter & -> & _ & Hletter & _).
  exists letter. split; [done|].
  unfold ensure_photo_insert_image_url, get.
  rewrite !update_lookup, lookup_insert_eq.
  rewrite lookup_insert_ne, lookup_singleton_ne by done.
  rewrite Hbase. destruct obase as [base|]; cbn; by rewrite insert_empty.
Qed.

Section CleanFacts.

Variable shorturl_encode : value → result string.
Variable shorturl_decode : string → result value.

(** X27.  The parameters of a tag once they are completed and tidied: the
    size is an alias with its letter, the caption is a truth value, the
    float is one of the three, and the URL holds no [http://]. *)
Theorem clean_photo_parameters_normal key_field photo p :
  clean_photo_parameters shorturl_encode shorturl_decode key_field photo
  = Ok p →
  ∃ size letter caption float u,
    p !! "size" = Some (VStr size)
    ∧ photo_suffixes !! size = Some letter
    ∧ p !! "size_suffix" = Some (VStr letter)
    ∧ p !! "show_caption" = Some (VBool caption)
    ∧ p !! "float" = Some (VStr float)
    ∧ float ∈ ["left"; "right"; ""]
    ∧ p !! "url" = Some (VStr u)
    ∧ str_contains u "http://" = false.
Proof.
  unfold clean_photo_parameters.
  destruct (get_photo_id_and_url _ _ _ _) as [id_and_url|] eqn:Hiu;
    cbn [mbind result_bind]; [|done].
  cbv zeta.
  apply get_photo_id_and_url_url in Hiu as (u & Hu & Hhttp).
  destruct (ensure_photo_size_cases (update photo id_and_url)
              default_image_size) as (size & letter & -> & Hs & _ & _).
  { exists "z". reflexivity. }
  destruct (ensure_photo_show_caption _) as [show_caption|] eqn:Hsc;
    cbn [mbind result_bind]; [|done].
  apply ensure_photo_show_caption_bool in Hsc as [caption ->].
  match goal with
  | |- (ensure_photo_float ?ph ≫= _) = _ → _ =>
      pose proof (ensure_photo_float_cases ph) as Hf;
      destruct (ensure_photo_float ph) as [float|]
  end; cbn [mbind result_bind mret result_ret]; [|done].
  destruct Hf as (v & -> & Hv & _). intros [= <-].
  exists size, letter, caption, v, u.
  rewrite !update_lookup.
  rewrite !lookup_singleton_eq.
  rewrite !(lookup_singleton_ne "float") by done.
  rewrite !(lookup_singleton_ne "show_caption") by done.
  rewrite lookup_insert_eq.
  rewrite !(lookup_insert_ne _ "size_suffix") by done.
  rewrite lookup_singleton_eq.
  rewrite (lookup_singleton_ne "size") by done.
  rewrite Hu. done.
Qed.

End CleanFacts.

(** ** Instances *)

Lemma caption_default_by_size_witness :
  ∃ letter,
    ensure_photo_size {[ "size" := VStr "small" ]} default_image_size
      !! "size_suffix" = Some (VStr letter)
    ∧ ensure_photo_show_caption
        (update {[ "size" := VStr "small" ]}
           (ensure_photo_size {[ "size" := VStr "small" ]}
              default_image_size))
      = Ok {[ "show_caption" := VBool (bool_decide (letter ∈ ["z"; "b"])) ]}.
Proof.
  apply (caption_default_by_size {[ "size" := VStr "small" ]}
           default_image_size).
  - exists "z". reflexivity.
  - reflexivity.
  - reflexivity.
Defined.

Lemma ensure_photo_insert_image_url_sized_witness :
  ∃ letter,
    letter ∈ ["s"; "t"; "q"; "m"; "z"; "b"]
    ∧ ensure_photo_insert_image_url
        (update cached_entry
           (ensure_photo_size cached_entry default_image_size))
      = Ok {[ "insert_image_url" :=
                VStr ((default "" (Some (insert_image_url_base_of sample_info))
                       ++ letter) ++ ".jpg") ]}.
Proof.
  apply (ensure_photo_insert_image_url_sized cached_entry
           default_image_size
           (Some (insert_image_url_base_of sample_info))).
  - exists "z". reflexivity.
  - reflexivity.
Defined.

Lemma replace_tag_cache_step_hit_witness :
  replace_tag_cache_step epoch_to_str_utc 0 0 flickr_down 1002 test_cfg
    refreshed_cache sample_photo "16736042621"
  = Ok (refreshed_cache, update sample_photo refreshed_entry).
Proof.
  apply (replace_tag_cache_step_hit epoch_to_str_utc 0 0 flickr_down 1002
           test_cfg refreshed_cache sample_photo "16736042621"
           refreshed_entry 1000).
  - reflexivity.
  - intros H. apply (f_equal (lookup "status")) in H. discriminate H.
  - reflexivity.
  - simpl; lia.
Defined.

Lemma refreshed_record_is_a_hit_witness :
  ∃ e,
    refresh_item_update epoch_to_str_utc 0
      (needs_update_result epoch_to_str_utc "pic_id" (VStr "16736042621")
         1140)
      (get_info_from_flickr flickr_ok "16736042621") 1000 test_cfg
    = Ok e
    ∧ replace_tag_cache_step epoch_to_str_utc 7 7 flickr_down 1000 test_cfg
        (<["16736042621" := e]> sample_cache) sample_photo "16736042621"
      = Ok (<["16736042621" := e]> sample_cache, update sample_photo e).
Proof.
  eexists. split; [reflexivity|].
  apply (refreshed_record_is_a_hit epoch_to_str_utc 0
           (needs_update_result epoch_to_str_utc "pic_id"
              (VStr "16736042621") 1140)
           (get_info_from_flickr flickr_ok "16736042621") 1000 test_cfg _
           7 7 flickr_down 1000 sample_cache sample_photo "16736042621").
  - reflexivity.
  - simpl; lia.
Defined.

Lemma replace_tag_cache_step_not_ok_witness :
  replace_tag_cache_step epoch_to_str_utc 0 0 flickr_not_ok 1000 test_cfg
    sample_cache sample_photo "16736042621"
  = Ok (sample_cache, sample_photo).
Proof.
  apply (replace_tag_cache_step_not_ok epoch_to_str_utc 0 0 flickr_not_ok
           1000 test_cfg sample_cache sample_photo "16736042621"
           cached_entry
           (needs_update_result epoch_to_str_utc "pic_id"
              (VStr "16736042621") 1140)
           "fail"
           {| farm := 0; server := ""; id := ""; secret := "";
              title_content := None |}).
  - reflexivity.
  - intros H. apply (f_equal (lookup "title")) in H. discriminate H.
  - reflexivity.
  - reflexivity.
  - reflexivity.
  - discriminate.
Defined.

Lemma replace_tag_cache_step_stub_witness :
  replace_tag_cache_step epoch_to_str_utc 0 0 flickr_not_ok 1000 test_cfg
    ∅ sample_photo "16736042621"
  = Ok (<["16736042621" := {[ key_field test_cfg := VStr "16736042621" ]}]>
          ∅,
        sample_photo).
Proof.
  apply (replace_tag_cache_step_stub epoch_to_str_utc 0 0 flickr_not_ok 1000
           test_cfg ∅ sample_photo "16736042621" "fail"
           {| farm := 0; server := ""; id := ""; secret := "";
              title_content := None |}).
  - reflexivity.
  - apply (bool_decide_unpack _); exact I.
  - simpl; lia.
  - simpl; lia.
  - reflexivity.
  - discriminate.
Defined.

Lemma replace_tag_cache_step_refresh_witness :
  ∃ e,
    replace_tag_cache_step epoch_to_str_utc 0 0 flickr_ok 1000 test_cfg
      sample_cache sample_photo "16736042621"
    = Ok (<["16736042621" := e]> sample_cache, update sample_photo e)
    ∧ e !! "title" = Some (VStr (default "" (title_content sample_info)))
    ∧ e !! "insert_image_url_base"
      = Some (VStr (insert_image_url_base_of sample_info))
    ∧ e !! "last_updated" = Some (VInt 1000)
    ∧ e !! "status" = Some (VStr "needs_update")
    ∧ ∀ k,
        needs_update_result epoch_to_str_utc "pic_id" (VStr "16736042621")
          1140 !! k = None →
        k ∉ ["title"; "insert_image_url_base"; "last_updated";
             "last_updated_str"; "next_update"; "next_update_str"] →
        e !! k = None.
Proof.
  apply (replace_tag_cache_step_refresh epoch_to_str_utc 0 0 flickr_ok 1000
           test_cfg sample_cache sample_photo "16736042621" cached_entry
           (needs_update_result epoch_to_str_utc "pic_id"
              (VStr "16736042621") 1140)
           sample_info).
  - reflexivity.
  - intros H. apply (f_equal (lookup "title")) in H. discriminate H.
  - reflexivity.
  - reflexivity.
  - reflexivity.
  - simpl; lia.
Defined.

Lemma replace_tag_cache_step_frame_witness :
  renamed_cache !! "A" = Some {[ "pic_id" := VStr "B" ]}
  ∧ ∃ e,
      (<["16736042621" := {[ "pic_id" := VStr "16736042621" ]}]>
         renamed_cache
         : gmap string dict)
      = <["16736042621" := e]> renamed_cache
      ∧ e ≠ ∅
      ∧ ∀ k, k ≠ "16736042621" →
          (<["16736042621" := {[ "pic_id" := VStr "16736042621" ]}]>
             renamed_cache
             : gmap string dict) !! k
          = renamed_cache !! k.
Proof.
  split; [reflexivity|].
  apply (replace_tag_cache_step_frame epoch_to_str_utc 0 0 flickr_not_ok
           1000 test_cfg renamed_cache sample_photo "16736042621" _
           sample_photo).
  reflexivity.
Defined.

Lemma get_photo_id_and_url_https_witness :
  ∃ u,
    (<["url" := VStr "https://www.flickr.com/photos/x/16736042621"]>
       (update {[ "pic_id" := VStr "16736042621" ]}
          {[ "url" := VStr "http://www.flickr.com/photos/x/16736042621" ]})
       : dict) !! "url" = Some (VStr u)
    ∧ str_contains u "http://" = false.
Proof.
  apply (get_photo_id_and_url_https shorturl_encode_sample
           shorturl_decode_sample
           (<["url" := VStr "http://www.flickr.com/photos/x/16736042621"]>
              {[ "id" := VStr "16736042621" ]})
           "pic_id").
  reflexivity.
Defined.

Lemma get_photo_id_and_url_short_witness :
  get_photo_id_and_url shorturl_encode_sample shorturl_decode_sample
    {[ "id" := VStr "16736042621" ]} "pic_id"
  = Ok (<["url" := VStr ("https://flic.kr/p/" ++ "r5ZpJq")]>
          {[ "pic_id" :=
               get {[ "id" := VStr "16736042621" ]} "pic_id"
                 (get {[ "id" := VStr "16736042621" ]} "id" VNone) ]}).
Proof.
  apply (get_photo_id_and_url_short shorturl_encode_sample
           shorturl_decode_sample {[ "id" := VStr "16736042621" ]} "pic_id"
           "r5ZpJq").
  - reflexivity.
  - reflexivity.
  - reflexivity.
Defined.

Lemma get_photo_id_and_url_from_url_witness :
  get_photo_id_and_url shorturl_encode_sample shorturl_decode_sample
    {[ "url" := VStr ("http://flic.kr/p" ++ "/" ++ "r5ZpJq" ++ "/") ]}
    "pic_id"
  = Ok (<["url" :=
            VStr (str_replace ("http://flic.kr/p" ++ "/" ++ "r5ZpJq" ++ "/")
                    "http://" "https://")]>
          {[ "pic_id" := VStr "16736042621" ]}).
Proof.
  apply (get_photo_id_and_url_from_url shorturl_encode_sample
           shorturl_decode_sample
           {[ "url" := VStr ("http://flic.kr/p" ++ "/" ++ "r5ZpJq" ++ "/") ]}
           "pic_id" "http://flic.kr/p" "r5ZpJq" "/" (VStr "16736042621")).
  - reflexivity.
  - reflexivity.
  - discriminate.
  - discriminate.
  - apply (bool_decide_unpack _); exact I.
  - by repeat constructor.
  - reflexivity.
Defined.

Lemma get_cache_update_for_item_missing_key_witness :
  get_cache_update_for_item epoch_to_str_utc 0 {[ "last_updated" := VInt 2 ]}
    8 test_cfg
  = if 8 - 2 <? session_interval test_cfg
    then Ok {[ "status" := VStr "ok" ]}
    else Raise (KeyError (VStr (key_field test_cfg))).
Proof.
  apply (get_cache_update_for_item_missing_key epoch_to_str_utc 0
           {[ "last_updated" := VInt 2 ]} 8 test_cfg 2).
  - reflexivity.
  - reflexivity.
Defined.

Lemma get_cache_update_for_item_outcomes_witness :
  needs_update_result epoch_to_str_utc "pic_id" (VInt 100) 281
  = {[ "status" := VStr "ok" ]}
  ∨ ∃ id n,
      entry_due_45 !! key_field test_cfg = Some id
      ∧ needs_update_result epoch_to_str_utc "pic_id" (VInt 100) 281
        = needs_update_result epoch_to_str_utc (key_field test_cfg) id n
      ∧ 141 + Z.min (recent_interval test_cfg + increment test_cfg)
                (refresh_interval test_cfg) <= n
      ∧ n <= 141 + refresh_interval test_cfg.
Proof.
  apply (get_cache_update_for_item_outcomes epoch_to_str_utc 0 entry_due_45
           141 test_cfg
           (needs_update_result epoch_to_str_utc "pic_id" (VInt 100) 281)).
  reflexivity.
Defined.

Lemma get_flickr_tags_single_witness :
  ∃ params,
    [<["full_tag" := VStr "[flickr:id=2]"]> (dict_of_items [("id", "2")])]
    = [params]
    ∧ match last (findall_sample "") with
      | None => params = ∅
      | Some m =>
          ∃ items,
            config_items_sample
              ("[temp]" ++ newline ++ str_replace m.2 "," newline)
            = Ok items
            ∧ params = <["full_tag" := VStr m.1]> (dict_of_items items)
      end.
Proof.
  apply (get_flickr_tags_single findall_sample config_items_sample "").
  reflexivity.
Defined.

Lemma clean_photo_parameters_normal_witness :
  ∃ size letter caption float u,
    cleaned_photo !! "size" = Some (VStr size)
    ∧ photo_suffixes !! size = Some letter
    ∧ cleaned_photo !! "size_suffix" = Some (VStr letter)
    ∧ cleaned_photo !! "show_caption" = Some (VBool caption)
    ∧ cleaned_photo !! "float" = Some (VStr float)
    ∧ float ∈ ["left"; "right"; ""]
    ∧ cleaned_photo !! "url" = Some (VStr u)
    ∧ str_contains u "http://" = false.
Proof.
  apply (clean_photo_parameters_normal shorturl_encode_sample
           shorturl_decode_sample "pic_id" {[ "id" := VStr "16736042621" ]}).
  reflexivity.
Defined.
